(** * AliceVision: scene container and sequential SfM engine

    A shallow embedding of [aliceVision/sfm/SfMData.hpp] and of the public
    configuration interface of
    [aliceVision/sfm/pipeline/sequential/ReconstructionEngine_sequentialSfM.hpp],
    with the properties of the scene container and of the reconstruction
    engine stated over it.

    Conventions.
    - [IndexT] is an unsigned 32-bit identifier; it is embedded as [N] and the
      reserved value [UndefinedIndexT] is written out.
    - [HashMap<K,V>] and [std::map<K,V>] become [gmap K V]; [std::set<K>]
      becomes [gset K]; a [std::shared_ptr<T>] that may be null is [option T].
    - [double] is the kernel's binary64 [float].
    - A member function that may throw returns [Result]; a member function
      that mutates the object returns the new object. *)

From Stdlib Require Import Floats Uint63.
From stdpp Require Import base option list gmap sets strings pretty sorting.

Set Default Proof Using "Type".
Local Open Scope N_scope.

(** ** Identifiers ([aliceVision/types.hpp]) *)

Abbreviation IndexT := N (only parsing).

(** Modelled from the spec: [types.hpp] is missing; an identifier is an opaque
    unsigned integer and a reserved sentinel denotes "undefined"
    ([std::numeric_limits<IndexT>::max()] for a 32-bit [IndexT]). *)
Definition UndefinedIndexT : IndexT := 4294967295.

(** [Pair] of view identifiers. *)
Abbreviation Pair := (IndexT * IndexT)%type (only parsing).

(** ** Exceptions *)

Inductive exn : Type :=
  | std_out_of_range (what : string)
  | std_runtime_error (what : string)
  | assertion_failure
  | null_dereference.

Inductive Result (A : Type) : Type :=
  | Ok (a : A)
  | Throw (e : exn).
Arguments Ok {A} a.
Arguments Throw {A} e.

#[global] Instance Result_ret : MRet Result := λ A a, Ok a.
#[global] Instance Result_bind : MBind Result := λ A B f m,
  match m with
  | Ok a => f a
  | Throw e => Throw e
  end.

(** [assert(c)] of <cassert>, as a build with assertions has it; under
    [NDEBUG] the macro expands to nothing. The code modelled below calls an
    asserting accessor only where the asserted condition holds, and there
    the two builds agree. *)
Definition assert_ (c : bool) : Result unit :=
  if c then Ok tt else Throw assertion_failure.

(** [m.at(k)] of [std::map] and [std::unordered_map]. *)
Definition map_at {V : Type} (m : gmap IndexT V) (k : IndexT) : Result V :=
  match m !! k with
  | Some v => Ok v
  | None => Throw (std_out_of_range "map::at")
  end.

(** [m.count(k)] and [m.find(k) != m.end()]. *)
Definition map_has {V : Type} (m : gmap IndexT V) (k : IndexT) : bool :=
  bool_decide (is_Some (m !! k)).

(** [a && b] of C++ on operands that may throw: [b] is evaluated only when
    [a] returned [true]. *)
Definition and_then (a b : Result bool) : Result bool :=
  a ≫= λ x : bool, if x then b else Ok false.
Infix "&&&" := and_then (at level 40, left associativity).
Arguments and_then : simpl never.

(** ** Geometry and camera types

    [geometry/Pose3.hpp], [numeric/numeric.hpp] and [camera/camera.hpp] are
    not part of the sources at hand: the types and the operations the scene
    container and the engine use from them are taken as parameters. *)

Class Geometry : Type := {
  Pose3 : Type;
  Vec3 : Type;
  Vec2 : Type;
  IntrinsicBase : Type;
  (** [Pose3()]: rotation = identity, centre = 0 *)
  Pose3_identity : Pose3;
  (** [operator*] of [Pose3] *)
  Pose3_mul : Pose3 → Pose3 → Pose3;
  (** [pose.depth(X)] *)
  Pose3_depth : Pose3 → Vec3 → float;
  (** angle in degrees between the rays from two camera centres to a point *)
  AngleBetweenRays : Pose3 → Pose3 → Vec3 → float;
  (** norm of the reprojection residual of an observation *)
  residualNorm : IntrinsicBase → Pose3 → Vec3 → Vec2 → float;
}.

(** ** Views ([sfm/View.hpp]) *)

(** Modelled from the spec: [View.hpp] is missing; a view holds its
    identifier, an intrinsic identifier, a pose identifier and, when the
    camera is part of a rig, rig and sub-pose identifiers. *)
Record View : Type := mkView {
  getViewId : IndexT;
  getIntrinsicId : IndexT;
  getPoseId : IndexT;
  getRigId : IndexT;
  getSubPoseId : IndexT;
}.

(** Modelled from the spec: [View.hpp] is missing; the rig identifier is
    optional, the sentinel standing for "no rig". *)
Definition isPartOfRig (v : View) : bool :=
  negb (getRigId v =? UndefinedIndexT).

Section Scene.
Context `{Geometry}.

(** ** Rigs ([sfm/Rig.hpp]) *)

(** Modelled from the spec: [Rig.hpp] is missing; each sub-pose of a rig has
    a status, uninitialized or estimated. *)
Inductive ERigSubPoseStatus : Type :=
  | UNINITIALIZED
  | ESTIMATED.

#[global] Instance ERigSubPoseStatus_eq_dec : EqDecision ERigSubPoseStatus.
Proof. solve_decision. Defined.

Record RigSubPose : Type := mkRigSubPose {
  status : ERigSubPoseStatus;
  pose : Pose3;
}.

Record Rig : Type := mkRig {
  _subPoses : list RigSubPose;
}.

(** Modelled from the spec: [Rig.hpp] is missing; [rig.getSubPose(index)]
    gives the sub-pose of the camera of that index, a range-checked access
    into the rig's sub-poses. *)
Definition getSubPose (rig : Rig) (index : IndexT) : Result RigSubPose :=
  match _subPoses rig !! N.to_nat index with
  | Some sp => Ok sp
  | None => Throw (std_out_of_range "vector::at")
  end.

(** ** Landmarks ([sfm/Landmark.hpp]) *)

(** Modelled from the spec: [Landmark.hpp] is missing; a landmark is a 3D
    point plus a mapping from view identifier to a 2D observation, one
    observation per view. *)
Record Observation : Type := mkObservation {
  x : Vec2;
  id_feat : IndexT;
}.

Record Landmark : Type := mkLandmark {
  X : Vec3;
  observations : gmap IndexT Observation;
}.

(** ** The scene container ([sfm/SfMData.hpp]) *)

Record SfMData : Type := mkSfMData {
  views : gmap IndexT (option View);
  intrinsics : gmap IndexT (option IntrinsicBase);
  structure : gmap IndexT Landmark;
  control_points : gmap IndexT Landmark;
  _featuresFolders : list string;
  _matchesFolders : list string;
  _poses : gmap IndexT Pose3;
  _rigs : gmap IndexT Rig;
}.

Definition set_poses (f : gmap IndexT Pose3 → gmap IndexT Pose3) (s : SfMData) : SfMData :=
  mkSfMData (views s) (intrinsics s) (structure s) (control_points s)
            (_featuresFolders s) (_matchesFolders s) (f (_poses s)) (_rigs s).

Definition set_structure (f : gmap IndexT Landmark → gmap IndexT Landmark) (s : SfMData) : SfMData :=
  mkSfMData (views s) (intrinsics s) (f (structure s)) (control_points s)
            (_featuresFolders s) (_matchesFolders s) (_poses s) (_rigs s).

(** [GetIntrinsicPtr]: the (possibly null) pointer stored under the id, or
    null. *)
Definition GetIntrinsicPtr (s : SfMData) (intrinsicId : IndexT) : option IntrinsicBase :=
  if map_has (intrinsics s) intrinsicId
  then default None (intrinsics s !! intrinsicId)
  else None.

Definition GetViewsKeys (s : SfMData) : gset IndexT := dom (views s).

Definition getRigPose (s : SfMData) (view : View) : Result Pose3 :=
  map_at (_poses s) (getPoseId view).

Definition getRigSubPose (s : SfMData) (view : View) : Result RigSubPose :=
  _ ← assert_ (isPartOfRig view);
  rig ← map_at (_rigs s) (getRigId view);
  getSubPose rig (getSubPoseId view).

Definition getRig (s : SfMData) (view : View) : Result Rig :=
  _ ← assert_ (isPartOfRig view);
  map_at (_rigs s) (getRigId view).

(** [IsPoseAndIntrinsicDefined] on a pointer to a view; the conjunction is evaluated
    left to right and stops at the first false operand. *)
Definition IsPoseAndIntrinsicDefined (s : SfMData) (view : option View) : Result bool :=
  match view with
  | None => Ok false
  | Some v =>
      Ok (negb (getIntrinsicId v =? UndefinedIndexT)) &&&
      Ok (negb (getPoseId v =? UndefinedIndexT)) &&&
      (if negb (isPartOfRig v) then Ok true
       else sp ← getRigSubPose s v;
            Ok (negb (bool_decide (status sp = UNINITIALIZED)))) &&&
      Ok (map_has (intrinsics s) (getIntrinsicId v)) &&&
      Ok (map_has (_poses s) (getPoseId v))
  end.

(** [IsPoseAndIntrinsicDefined] on a view identifier. *)
Definition IsPoseAndIntrinsicDefined_id (s : SfMData) (viewId : IndexT) : Result bool :=
  v ← map_at (views s) viewId;
  IsPoseAndIntrinsicDefined s v.

Definition existsPose (s : SfMData) (view : View) : bool :=
  map_has (_poses s) (getPoseId view).

(** [getPose]: the pose of a view, composed with the sub-pose for a view of
    a rig. *)
Definition getPose (s : SfMData) (view : View) : Result Pose3 :=
  if negb (isPartOfRig view) then map_at (_poses s) (getPoseId view)
  else
    rigPose ← getRigPose s view;
    sp ← getRigSubPose s view;
    Ok (Pose3_mul (pose sp) rigPose).

Definition setAbsolutePose (poseId : IndexT) (p : Pose3) (s : SfMData) : SfMData :=
  set_poses (<[poseId := p]>) s.

(** [erasePose]: the scene after the call, and how the call ended. *)
Definition erasePose (poseId : IndexT) (s : SfMData) : SfMData * Result unit :=
  match _poses s !! poseId with
  | Some _ => (set_poses (delete poseId) s, Ok tt)
  | None =>
      (s, Throw (std_out_of_range ("Can't erase unfind pose " +:+ pretty poseId)))
  end.

End Scene.

(** ** The sequential engine
    ([sfm/pipeline/sequential/ReconstructionEngine_sequentialSfM.hpp]) *)

(** The collaborators of the engine that are not part of the sources at
    hand: the data providers, the robust estimator selector and the
    [stlplus] file system calls of [setUseLocalBundleAdjustmentStrategy]. *)
Class Externals : Type := {
  FeaturesPerView : Type;
  PairwiseMatches : Type;
  ERobustEstimator : Type;
  ACRANSAC : ERobustEstimator;
  FileSystem : Type;
  folder_append_separator : string → string;
  folder_exists : string → FileSystem → bool;
  folder_delete : string → bool → FileSystem → FileSystem;
  folder_create : string → FileSystem → FileSystem;
  (** the graph distance a new [LocalBundleAdjustmentData] starts with *)
  initialGraphDistanceLimit : N;
}.

(** Modelled from the spec: [LocalBundleAdjustmentData.hpp] is missing; the
    local strategy refines the parameters within a bounded graph distance of
    the newly added views, and the engine gives it an output directory. *)
Record LocalBundleAdjustmentData : Type := mkLocalBundleAdjustmentData {
  getGraphDistanceLimit : N;
  getOutDirectory : string;
}.

Definition setGraphDistanceLimit (limit : N) (d : LocalBundleAdjustmentData) :
    LocalBundleAdjustmentData :=
  mkLocalBundleAdjustmentData limit (getOutDirectory d).

Definition setOutDirectory (dir : string) (d : LocalBundleAdjustmentData) :
    LocalBundleAdjustmentData :=
  mkLocalBundleAdjustmentData (getGraphDistanceLimit d) dir.

Section Engine.
Context `{Geometry} `{Externals}.

(** The engine object: the members of the base class the header uses
    ([_sfm_data], [_sOutDirectory]), the parameters, the data providers, the
    putative tracks and the local bundle adjustment data. The pyramid caches
    and the log streams are not touched by any operation below and are left
    out. *)
Record ReconstructionEngine_sequentialSfM : Type := mkEngine {
  _sfm_data : SfMData;
  _sOutDirectory : string;
  _userInitialImagePair : Pair;
  _minInputTrackLength : Z;
  _minTrackLength : Z;
  _minPointsPerPose : Z;
  _uselocalBundleAdjustment : bool;
  _minNbObservationsForTriangulation : N;
  _minAngleForTriangulation : float;
  _localizerEstimator : ERobustEstimator;
  _featuresPerView : option FeaturesPerView;
  _pairwiseMatches : option PairwiseMatches;
  _map_tracks : gmap IndexT (gmap IndexT IndexT);
  _localBA_data : option LocalBundleAdjustmentData;
  _sfmdataInterFileExtension : string;
}.

Definition _pyramidBase : Z := 2.
Definition _pyramidDepth : Z := 5.

(** Modelled from the spec: the body of the constructor is missing; a
    freshly constructed engine has the scene and the output directory given
    to the constructor, and the default member initializers of the header
    for everything else (a default-constructed pair, null pointers, empty
    containers where the header gives none). *)
Definition newEngine (sfmData : SfMData) (soutDirectory : string) :
    ReconstructionEngine_sequentialSfM :=
  {| _sfm_data := sfmData;
     _sOutDirectory := soutDirectory;
     _userInitialImagePair := (0, 0);
     _minInputTrackLength := 2;
     _minTrackLength := 2;
     _minPointsPerPose := 30;
     _uselocalBundleAdjustment := false;
     _minNbObservationsForTriangulation := 2;
     _minAngleForTriangulation := 3.0%float;
     _localizerEstimator := ACRANSAC;
     _featuresPerView := None;
     _pairwiseMatches := None;
     _map_tracks := ∅;
     _localBA_data := None;
     _sfmdataInterFileExtension := ".ply" |}.

Definition setFeatures (featuresPerView : option FeaturesPerView)
    (e : ReconstructionEngine_sequentialSfM) : ReconstructionEngine_sequentialSfM :=
  mkEngine (_sfm_data e) (_sOutDirectory e) (_userInitialImagePair e)
    (_minInputTrackLength e) (_minTrackLength e) (_minPointsPerPose e)
    (_uselocalBundleAdjustment e) (_minNbObservationsForTriangulation e)
    (_minAngleForTriangulation e) (_localizerEstimator e)
    featuresPerView (_pairwiseMatches e) (_map_tracks e) (_localBA_data e)
    (_sfmdataInterFileExtension e).

Definition setMatches (pairwiseMatches : option PairwiseMatches)
    (e : ReconstructionEngine_sequentialSfM) : ReconstructionEngine_sequentialSfM :=
  mkEngine (_sfm_data e) (_sOutDirectory e) (_userInitialImagePair e)
    (_minInputTrackLength e) (_minTrackLength e) (_minPointsPerPose e)
    (_uselocalBundleAdjustment e) (_minNbObservationsForTriangulation e)
    (_minAngleForTriangulation e) (_localizerEstimator e)
    (_featuresPerView e) pairwiseMatches (_map_tracks e) (_localBA_data e)
    (_sfmdataInterFileExtension e).

Definition setInitialPair (initialPair : Pair)
    (e : ReconstructionEngine_sequentialSfM) : ReconstructionEngine_sequentialSfM :=
  mkEngine (_sfm_data e) (_sOutDirectory e) initialPair
    (_minInputTrackLength e) (_minTrackLength e) (_minPointsPerPose e)
    (_uselocalBundleAdjustment e) (_minNbObservationsForTriangulation e)
    (_minAngleForTriangulation e) (_localizerEstimator e)
    (_featuresPerView e) (_pairwiseMatches e) (_map_tracks e) (_localBA_data e)
    (_sfmdataInterFileExtension e).

Definition setMinTrackLength (minTrackLength : Z)
    (e : ReconstructionEngine_sequentialSfM) : ReconstructionEngine_sequentialSfM :=
  mkEngine (_sfm_data e) (_sOutDirectory e) (_userInitialImagePair e)
    (_minInputTrackLength e) minTrackLength (_minPointsPerPose e)
    (_uselocalBundleAdjustment e) (_minNbObservationsForTriangulation e)
    (_minAngleForTriangulation e) (_localizerEstimator e)
    (_featuresPerView e) (_pairwiseMatches e) (_map_tracks e) (_localBA_data e)
    (_sfmdataInterFileExtension e).

Definition setMinInputTrackLength (minInputTrackLength : Z)
    (e : ReconstructionEngine_sequentialSfM) : ReconstructionEngine_sequentialSfM :=
  mkEngine (_sfm_data e) (_sOutDirectory e) (_userInitialImagePair e)
    minInputTrackLength (_minTrackLength e) (_minPointsPerPose e)
    (_uselocalBundleAdjustment e) (_minNbObservationsForTriangulation e)
    (_minAngleForTriangulation e) (_localizerEstimator e)
    (_featuresPerView e) (_pairwiseMatches e) (_map_tracks e) (_localBA_data e)
    (_sfmdataInterFileExtension e).

Definition setIntermediateFileExtension (interFileExtension : string)
    (e : ReconstructionEngine_sequentialSfM) : ReconstructionEngine_sequentialSfM :=
  mkEngine (_sfm_data e) (_sOutDirectory e) (_userInitialImagePair e)
    (_minInputTrackLength e) (_minTrackLength e) (_minPointsPerPose e)
    (_uselocalBundleAdjustment e) (_minNbObservationsForTriangulation e)
    (_minAngleForTriangulation e) (_localizerEstimator e)
    (_featuresPerView e) (_pairwiseMatches e) (_map_tracks e) (_localBA_data e)
    interFileExtension.

Definition setNbOfObservationsForTriangulation (minNbObservationsForTriangulation : N)
    (e : ReconstructionEngine_sequentialSfM) : ReconstructionEngine_sequentialSfM :=
  mkEngine (_sfm_data e) (_sOutDirectory e) (_userInitialImagePair e)
    (_minInputTrackLength e) (_minTrackLength e) (_minPointsPerPose e)
    (_uselocalBundleAdjustment e) minNbObservationsForTriangulation
    (_minAngleForTriangulation e) (_localizerEstimator e)
    (_featuresPerView e) (_pairwiseMatches e) (_map_tracks e) (_localBA_data e)
    (_sfmdataInterFileExtension e).

Definition setLocalizerEstimator (estimator : ERobustEstimator)
    (e : ReconstructionEngine_sequentialSfM) : ReconstructionEngine_sequentialSfM :=
  mkEngine (_sfm_data e) (_sOutDirectory e) (_userInitialImagePair e)
    (_minInputTrackLength e) (_minTrackLength e) (_minPointsPerPose e)
    (_uselocalBundleAdjustment e) (_minNbObservationsForTriangulation e)
    (_minAngleForTriangulation e) estimator
    (_featuresPerView e) (_pairwiseMatches e) (_map_tracks e) (_localBA_data e)
    (_sfmdataInterFileExtension e).

Definition set_sfm_data (f : SfMData → SfMData)
    (e : ReconstructionEngine_sequentialSfM) : ReconstructionEngine_sequentialSfM :=
  mkEngine (f (_sfm_data e)) (_sOutDirectory e) (_userInitialImagePair e)
    (_minInputTrackLength e) (_minTrackLength e) (_minPointsPerPose e)
    (_uselocalBundleAdjustment e) (_minNbObservationsForTriangulation e)
    (_minAngleForTriangulation e) (_localizerEstimator e)
    (_featuresPerView e) (_pairwiseMatches e) (_map_tracks e) (_localBA_data e)
    (_sfmdataInterFileExtension e).

Definition set_localBA (flag : bool) (d : option LocalBundleAdjustmentData)
    (e : ReconstructionEngine_sequentialSfM) : ReconstructionEngine_sequentialSfM :=
  mkEngine (_sfm_data e) (_sOutDirectory e) (_userInitialImagePair e)
    (_minInputTrackLength e) (_minTrackLength e) (_minPointsPerPose e)
    flag (_minNbObservationsForTriangulation e)
    (_minAngleForTriangulation e) (_localizerEstimator e)
    (_featuresPerView e) (_pairwiseMatches e) (_map_tracks e) d
    (_sfmdataInterFileExtension e).

(** [setLocalBundleAdjustmentGraphDistance]: the limit is written through
    the pointer [_localBA_data] only under the flag. *)
Definition setLocalBundleAdjustmentGraphDistance (distance : N)
    (e : ReconstructionEngine_sequentialSfM) : Result ReconstructionEngine_sequentialSfM :=
  if _uselocalBundleAdjustment e then
    match _localBA_data e with
    | Some d =>
        Ok (set_localBA (_uselocalBundleAdjustment e)
              (Some (setGraphDistanceLimit distance d)) e)
    | None => Throw null_dereference
    end
  else Ok e.

(** [setUseLocalBundleAdjustmentStrategy]: sets the flag and, for [true],
    makes new local bundle adjustment data and empties its directory. *)
Definition setUseLocalBundleAdjustmentStrategy (v : bool)
    (w : FileSystem * ReconstructionEngine_sequentialSfM) :
    FileSystem * ReconstructionEngine_sequentialSfM :=
  let '(fs, e) := w in
  if v then
    let d := setOutDirectory
               (folder_append_separator (_sOutDirectory e) +:+ "localBA/")
               (mkLocalBundleAdjustmentData initialGraphDistanceLimit "") in
    let fs1 := if folder_exists (getOutDirectory d) fs
               then folder_delete (getOutDirectory d) true fs else fs in
    (folder_create (getOutDirectory d) fs1, set_localBA v (Some d) e)
  else (fs, set_localBA v (_localBA_data e) e).

(** The configuration calls of the public interface, and a sequence of them
    run on an engine. *)
Inductive ConfigCall : Type :=
  | CallSetFeatures (f : option FeaturesPerView)
  | CallSetMatches (m : option PairwiseMatches)
  | CallSetInitialPair (p : Pair)
  | CallSetMinTrackLength (n : Z)
  | CallSetMinInputTrackLength (n : Z)
  | CallSetIntermediateFileExtension (ext : string)
  | CallSetNbOfObservationsForTriangulation (n : N)
  | CallSetLocalBundleAdjustmentGraphDistance (d : N)
  | CallSetUseLocalBundleAdjustmentStrategy (v : bool)
  | CallSetLocalizerEstimator (est : ERobustEstimator).

Definition runCall (c : ConfigCall)
    (w : FileSystem * ReconstructionEngine_sequentialSfM) :
    Result (FileSystem * ReconstructionEngine_sequentialSfM) :=
  match c with
  | CallSetFeatures f => Ok (w.1, setFeatures f w.2)
  | CallSetMatches m => Ok (w.1, setMatches m w.2)
  | CallSetInitialPair p => Ok (w.1, setInitialPair p w.2)
  | CallSetMinTrackLength n => Ok (w.1, setMinTrackLength n w.2)
  | CallSetMinInputTrackLength n => Ok (w.1, setMinInputTrackLength n w.2)
  | CallSetIntermediateFileExtension ext =>
      Ok (w.1, setIntermediateFileExtension ext w.2)
  | CallSetNbOfObservationsForTriangulation n =>
      Ok (w.1, setNbOfObservationsForTriangulation n w.2)
  | CallSetLocalBundleAdjustmentGraphDistance d =>
      e' ← setLocalBundleAdjustmentGraphDistance d w.2; Ok (w.1, e')
  | CallSetUseLocalBundleAdjustmentStrategy v =>
      Ok (setUseLocalBundleAdjustmentStrategy v w)
  | CallSetLocalizerEstimator est => Ok (w.1, setLocalizerEstimator est w.2)
  end.

Fixpoint runCalls (cs : list ConfigCall)
    (w : FileSystem * ReconstructionEngine_sequentialSfM) :
    Result (FileSystem * ReconstructionEngine_sequentialSfM) :=
  match cs with
  | [] => Ok w
  | c :: cs' => w' ← runCall c w; runCalls cs' w'
  end.

(** The value of the last [setUseLocalBundleAdjustmentStrategy] call of a
    sequence, when there is one. *)
Fixpoint lastStrategyCall (cs : list ConfigCall) : option bool :=
  match cs with
  | [] => None
  | CallSetUseLocalBundleAdjustmentStrategy v :: cs' =>
      Some (default v (lastStrategyCall cs'))
  | _ :: cs' => lastStrategyCall cs'
  end.

(** Under the flag the pointer to the local bundle adjustment data is not
    null: every configuration call keeps it so. *)
Definition localBA_ready (e : ReconstructionEngine_sequentialSfM) : Prop :=
  _uselocalBundleAdjustment e = true → is_Some (_localBA_data e).

(** *** Bundle adjustment strategies *)

(** Modelled from the spec: the two refinement strategies. *)
Inductive BundleAdjustmentStrategy : Type :=
  | GlobalBA
  | LocalBA.

End Engine.

(** Descending score order: [a] may come before [b]. *)
Definition scoreBefore {A : Type} (score : A → N) (a b : A) : Prop :=
  (score b ≤ score a)%N.

#[global] Instance scoreBefore_dec {A} (score : A → N) : RelDecision (scoreBefore score).
Proof. intros a b. unfold scoreBefore. apply _. Defined.

#[global] Instance scoreBefore_total {A} (score : A → N) : Total (scoreBefore score).
Proof. intros a b. unfold scoreBefore. lia. Qed.

#[global] Instance scoreBefore_trans {A} (score : A → N) : Transitive (scoreBefore score).
Proof. intros a b c. unfold scoreBefore. lia. Qed.

(** ** The reconstruction pipeline

    [ReconstructionEngine_sequentialSfM.cpp] is not part of the sources at
    hand: the header declares the steps of the pipeline and documents them,
    and their bodies are modelled from the specification. *)

(** The robust estimators, the nonlinear solver and the view and pair scores
    the pipeline consumes as black boxes, and two decisions of bodies that
    are not part of the sources at hand and that are left open. *)
Class Estimators `{Geometry} `{Externals} : Type := {
  (** position of a feature of a view *)
  featurePosition : option FeaturesPerView → IndexT → IndexT → Vec2;
  (** robust multi-view triangulation of a track from its reconstructed
      views: the point and the views counted as inliers, or a failure *)
  multiViewTriangulation :
    SfMData → IndexT → gset IndexT → option (Vec3 * gset IndexT);
  (** robust pose estimation of a view from the tracks it shares with the
      landmarks: the pose, the inlier tracks and, when the intrinsic of the
      view was unknown, an estimated intrinsic; or no model *)
  robustPoseEstimation :
    ERobustEstimator → SfMData → IndexT → gset IndexT →
    option (Pose3 * gset IndexT * option IntrinsicBase);
  (** whether the inliers of a resection are geometrically degenerate *)
  degenerateInliers : SfMData → IndexT → gset IndexT → bool;
  (** robust two-view relative pose over the tracks shared by a pair *)
  robustRelativePose : SfMData → gset IndexT → Pair → option Pose3;
  (** whether the structure triangulated from a pair is enough to start *)
  validInitialStructure : gmap IndexT Landmark → bool;
  (** the pairs of views with sufficient shared tracks, and their score *)
  initialPairCandidates : SfMData → gmap IndexT (gmap IndexT IndexT) → list Pair;
  initialPairScore : SfMData → gmap IndexT (gmap IndexT IndexT) → Pair → N;
  (** connectivity score of a view that is not reconstructed yet, and
      whether a connected view is kept in the batch to resect *)
  viewConnectionScore : SfMData → gmap IndexT (gmap IndexT IndexT) → IndexT → N;
  keptInBatch : SfMData → list IndexT → IndexT → bool;
  (** the solver: refined poses, intrinsics and points, or no convergence;
      for the local strategy the views just added are given *)
  refine : SfMData → option (gset IndexT) → bool → option SfMData;
  (** [setPose] on a view of a rig (body in [SfMData.cpp]) *)
  setRigViewPose : View → Pose3 → SfMData → SfMData;
  (** which refinement a pass of the loop runs after its triangulation: the
      body of [updateReconstruction], which decides it, is not part of the
      sources at hand, and nothing below depends on the choice *)
  iterationBundleAdjustment :
    ReconstructionEngine_sequentialSfM → BundleAdjustmentStrategy;
}.

Section Pipeline.
Context `{Geometry} `{Externals} `{!Estimators}.

Implicit Types e : ReconstructionEngine_sequentialSfM.

(** Modelled from the spec: the bodies that look a view up by its id are
    missing; the pose of the view of a given id, when the view and its pose
    exist. *)
Definition viewPose (scene : SfMData) (viewId : IndexT) : option Pose3 :=
  match views scene !! viewId with
  | Some (Some v) =>
      match getPose scene v with
      | Ok p => Some p
      | Throw _ => None
      end
  | _ => None
  end.

(** Modelled from the spec: the body of [SfMData::setPose] is missing; it
    sets the given pose for the given view, through its pose id for a view
    outside any rig. *)
Definition setPose (view : View) (p : Pose3) (s : SfMData) : SfMData :=
  if isPartOfRig view then setRigViewPose view p s
  else setAbsolutePose (getPoseId view) p s.

(** *** Triangulation *)

(** Modelled from the spec: the body of [checkChieralities] is missing; the
    point has positive depth in front of every view of the set (the header:
    false if the point is located behind one view or more). *)
Definition checkChieralities (pt3D : Vec3) (viewsId : gset IndexT)
    (scene : SfMData) : bool :=
  forallb
    (λ viewId,
       match viewPose scene viewId with
       | Some p => PrimFloat.ltb 0 (Pose3_depth p pt3D)
       | None => false
       end)
    (elements viewsId).

(** Modelled from the spec: the body of [checkAngles] is missing; at least
    one pair of views of the set sees the point under an angle of at least
    [kMinAngle]. *)
Definition checkAngles (pt3D : Vec3) (viewsId : gset IndexT)
    (scene : SfMData) (kMinAngle : float) : bool :=
  existsb
    (λ viewIdA,
       existsb
         (λ viewIdB,
            (viewIdA <? viewIdB) &&
            match viewPose scene viewIdA, viewPose scene viewIdB with
            | Some pA, Some pB =>
                PrimFloat.leb kMinAngle (AngleBetweenRays pA pB pt3D)
            | _, _ => false
            end)
         (elements viewsId))
    (elements viewsId).

(** Modelled from the spec: the body of [getTracksToTriangulate] is missing;
    a track is a candidate when it has at least one observation in a newly
    reconstructed view and at least [_minNbObservationsForTriangulation]
    observations in reconstructed views, and it comes with those views. *)
Definition getTracksToTriangulate e
    (previousReconstructedViews newReconstructedViews : gset IndexT) :
    gmap IndexT (gset IndexT) :=
  omap
    (λ track : gmap IndexT IndexT,
       let obs := dom track ∩ (previousReconstructedViews ∪ newReconstructedViews) in
       if decide (obs ∩ newReconstructedViews ≠ ∅ ∧
                  (_minNbObservationsForTriangulation e ≤ N.of_nat (size obs))%N)
       then Some obs else None)
    (_map_tracks e).

(** Modelled from the spec: the body of the triangulation is missing; the
    observation of a track in a view is the feature of the track in that
    view, at its position. *)
Definition trackObservation e (trackId viewId : IndexT) : Observation :=
  let featId :=
    default UndefinedIndexT (_map_tracks e !! trackId ≫= λ track, track !! viewId) in
  mkObservation (featurePosition (_featuresPerView e) viewId featId) featId.

(** Modelled from the spec: the body of the triangulation is missing; an
    accepted track becomes a landmark, the point with the observations of
    the views that contribute to it. *)
Definition trackLandmark e (trackId : IndexT) (pt3D : Vec3)
    (contributing : gset IndexT) : Landmark :=
  mkLandmark pt3D
    (set_to_map (λ viewId, (viewId, trackObservation e trackId viewId)) contributing).

(** Modelled from the spec: one candidate track of the triangulation. The
    robust solver gives a point and its inlier views; the point is accepted
    when it passes the cheirality gate and the angle gate on those views,
    and it then becomes the landmark of the track; otherwise the scene is
    left as it is. *)
Definition triangulateTrack e (trackId : IndexT) (obsViews : gset IndexT)
    (scene : SfMData) : SfMData :=
  match multiViewTriangulation scene trackId obsViews with
  | None => scene
  | Some (pt3D, inliers) =>
      let contributing := inliers ∩ obsViews in
      if checkChieralities pt3D contributing scene &&
         checkAngles pt3D contributing scene (_minAngleForTriangulation e)
      then set_structure (<[trackId := trackLandmark e trackId pt3D contributing]>) scene
      else scene
  end.

(** Modelled from the spec: the body of [triangulateMultiViews_LORANSAC] is
    missing; every candidate track is triangulated in turn. *)
Definition triangulate e (scene : SfMData)
    (previousReconstructedViews newReconstructedViews : gset IndexT) : SfMData :=
  map_fold (triangulateTrack e) scene
    (getTracksToTriangulate e previousReconstructedViews newReconstructedViews).

(** Two scenes with the same cameras: views, intrinsics, poses and rigs. *)
Definition sameCameras (s1 s2 : SfMData) : Prop :=
  views s1 = views s2 ∧ intrinsics s1 = intrinsics s2 ∧
  _poses s1 = _poses s2 ∧ _rigs s1 = _rigs s2.

(** Both gates, spelled out on a point and the views that contribute to it;
    a pair of views is taken once, the smaller identifier first. *)
Definition passesGates (scene : SfMData) (kMinAngle : float)
    (pt3D : Vec3) (contributing : gset IndexT) : Prop :=
  (∀ viewId, viewId ∈ contributing →
     ∃ p, viewPose scene viewId = Some p
        ∧ PrimFloat.ltb 0 (Pose3_depth p pt3D) = true) ∧
  (∃ viewIdA viewIdB pA pB,
     viewIdA ∈ contributing ∧ viewIdB ∈ contributing ∧ (viewIdA < viewIdB)%N
     ∧ viewPose scene viewIdA = Some pA ∧ viewPose scene viewIdB = Some pB
     ∧ PrimFloat.leb kMinAngle (AngleBetweenRays pA pB pt3D) = true).

(** *** Outlier filter *)

(** Modelled from the spec: the body of the outlier filter is missing; the
    reprojection residual of an observation of a point in a view, when the
    view has a pose and an intrinsic. *)
Definition observationResidual (scene : SfMData) (pt3D : Vec3)
    (viewId : IndexT) (obs : Observation) : option float :=
  match views scene !! viewId with
  | Some (Some v) =>
      match getPose scene v, GetIntrinsicPtr scene (getIntrinsicId v) with
      | Ok p, Some k => Some (residualNorm k p pt3D (x obs))
      | _, _ => None
      end
  | _ => None
  end.

(** Modelled from the spec: an observation is removed when its residual
    exceeds the precision, and stays otherwise. *)
Definition withinPrecision (scene : SfMData) (precision : float) (pt3D : Vec3)
    (viewId : IndexT) (obs : Observation) : bool :=
  match observationResidual scene pt3D viewId obs with
  | Some r => negb (PrimFloat.ltb precision r)
  | None => true
  end.

(** Modelled from the spec: a landmark without the observations whose
    residual exceeds the precision. *)
Definition pruneObservations (scene : SfMData) (precision : float)
    (lm : Landmark) : Landmark :=
  mkLandmark (X lm)
    (filter (λ kv, withinPrecision scene precision (X lm) kv.1 kv.2 = true)
            (observations lm)).

(** Modelled from the spec: a landmark is removed when its angle is below
    the minimum angle or its number of observations dropped below the
    minimum; it stays when it still has the minimum number of observations
    and a pair of its views reaches the minimum angle. *)
Definition keepsLandmark e (scene : SfMData) (lm : Landmark) : Prop :=
  (_minNbObservationsForTriangulation e ≤ N.of_nat (size (observations lm)))%N ∧
  checkAngles (X lm) (dom (observations lm)) scene (_minAngleForTriangulation e) = true.

#[global] Instance keepsLandmark_dec e scene lm : Decision (keepsLandmark e scene lm).
Proof. unfold keepsLandmark. apply _. Defined.

(** The number of observations of all the landmarks. *)
Definition countObservations (m : gmap IndexT Landmark) : nat :=
  map_fold (λ _ lm n, size (observations lm) + n)%nat 0%nat m.

(** Modelled from the spec: the body of [removeOutliers] is missing; it
    removes the observations whose residual exceeds the precision, then the
    landmarks whose angle is below the minimum angle or whose number of
    observations dropped below the minimum, and returns how many
    observations and landmarks it removed. *)
Definition removeOutliers (precision : float) e :
    ReconstructionEngine_sequentialSfM * N :=
  let scene := _sfm_data e in
  let pruned := pruneObservations scene precision <$> structure scene in
  let kept := filter (λ kv, keepsLandmark e scene kv.2) pruned in
  (set_sfm_data (set_structure (λ _, kept)) e,
   N.of_nat ((countObservations (structure scene) - countObservations pruned)
             + (size pruned - size kept))).

(** *** Resection *)

(** [ResectionData] of the header, without the members of its base
    [ImageLocalizerMatchData] and the feature ids; its [pose] member is
    [resection_pose] here, the name [pose] being taken by the sub-poses of a
    rig. *)
Record ResectionData : Type := mkResectionData {
  tracksId : gset IndexT;
  resection_pose : Pose3;
  optionalIntrinsic : option IntrinsicBase;
  isNewIntrinsic : bool;
}.

(** Modelled from the spec: the three ways a resection fails. *)
Inductive ResectionFailure : Type :=
  | InsufficientCorrespondences
  | NoModelFound
  | DegenerateInliers.

(** Modelled from the spec: the body of [computeResection] is missing; the
    2D-3D correspondences of a view are its tracks that already are
    landmarks of the scene. *)
Definition resectionTracks e (viewIndex : IndexT) : gset IndexT :=
  dom (filter (λ kv : IndexT * gmap IndexT IndexT,
                 is_Some (kv.2 !! viewIndex) ∧
                 is_Some (structure (_sfm_data e) !! kv.1))
              (_map_tracks e)).

(** Modelled from the spec: whether the intrinsic of a view already exists
    in the scene. *)
Definition viewIntrinsicKnown (scene : SfMData) (viewIndex : IndexT) : bool :=
  match views scene !! viewIndex with
  | Some (Some v) => map_has (intrinsics scene) (getIntrinsicId v)
  | _ => false
  end.

(** Modelled from the spec: the body of [computeResection] is missing; the
    robust estimation is attempted on at least [_minPointsPerPose]
    correspondences, and the resection fails on too few correspondences,
    when no model is found, and on degenerate inliers. *)
Definition computeResection e (viewIndex : IndexT) :
    ResectionData + ResectionFailure :=
  let tracks := resectionTracks e viewIndex in
  if (Z.of_nat (size tracks) <? _minPointsPerPose e)%Z
  then inr InsufficientCorrespondences
  else
    match robustPoseEstimation (_localizerEstimator e) (_sfm_data e) viewIndex tracks with
    | None => inr NoModelFound
    | Some (p, inliers, k) =>
        if degenerateInliers (_sfm_data e) viewIndex inliers
        then inr DegenerateInliers
        else inl (mkResectionData inliers p k
                    (negb (viewIntrinsicKnown (_sfm_data e) viewIndex)))
    end.

(** Modelled from the spec: the body of [updateScene] is missing; the
    observation of a view added to the landmark of a track. *)
Definition addObservation e (viewIndex trackId : IndexT)
    (landmarks : gmap IndexT Landmark) : gmap IndexT Landmark :=
  alter
    (λ lm, mkLandmark (X lm)
             (<[viewIndex := trackObservation e trackId viewIndex]> (observations lm)))
    trackId landmarks.

Definition set_intrinsics
    (f : gmap IndexT (option IntrinsicBase) → gmap IndexT (option IntrinsicBase))
    (s : SfMData) : SfMData :=
  mkSfMData (views s) (f (intrinsics s)) (structure s) (control_points s)
            (_featuresFolders s) (_matchesFolders s) (_poses s) (_rigs s).

(** Modelled from the spec: the body of [updateScene] is missing; the pose
    found by the resection is set for the view, a new intrinsic is added,
    and the observations of the view are added to the landmarks. *)
Definition updateScene (viewIndex : IndexT) (rd : ResectionData) e :
    ReconstructionEngine_sequentialSfM :=
  match views (_sfm_data e) !! viewIndex with
  | Some (Some v) =>
      set_sfm_data
        (λ s,
           let s1 := setPose v (resection_pose rd) s in
           let s2 := if isNewIntrinsic rd
                     then set_intrinsics (<[getIntrinsicId v := optionalIntrinsic rd]>) s1
                     else s1 in
           set_structure
             (λ landmarks, set_fold (addObservation e viewIndex) landmarks (tracksId rd))
             s2)
        e
  | _ => e
  end.

(** Whether [computeResection] succeeds on a view. *)
Definition isResected e (viewIndex : IndexT) : bool :=
  match computeResection e viewIndex with
  | inl _ => true
  | inr _ => false
  end.

(** Modelled from the spec: the resections of a batch are independent, on
    the scene as it is when the batch starts; the views of the batch whose
    resection succeeds. *)
Definition resectedViews e (bestViewIds : list IndexT) : list IndexT :=
  filter (λ viewId, isResected e viewId = true) bestViewIds.

(** Modelled from the spec: the successful resections of a batch are merged
    into the scene one after the other. *)
Definition mergeResections e (bestViewIds : list IndexT) :
    ReconstructionEngine_sequentialSfM :=
  foldl
    (λ acc viewId,
       match computeResection e viewId with
       | inl rd => updateScene viewId rd acc
       | inr _ => acc
       end)
    e bestViewIds.

(** *** Bundle adjustment *)

(** Modelled from the spec: the bodies of [BundleAdjustment] and
    [localBundleAdjustment] are missing; both hand the scene to the solver
    and keep the values they had when it does not converge. *)
Definition BundleAdjustment (fixedIntrinsics : bool) e :
    ReconstructionEngine_sequentialSfM * bool :=
  match refine (_sfm_data e) None fixedIntrinsics with
  | Some s' => (set_sfm_data (λ _, s') e, true)
  | None => (e, false)
  end.

Definition localBundleAdjustment (newReconstructedViews : gset IndexT) e :
    ReconstructionEngine_sequentialSfM * bool :=
  match refine (_sfm_data e) (Some newReconstructedViews) true with
  | Some s' => (set_sfm_data (λ _, s') e, true)
  | None => (e, false)
  end.

(** *** The reconstruction loop *)

(** Modelled from the spec: the body of [findConnectedViews] is missing; the
    remaining views with a connection to the reconstruction, best score
    first. *)
Definition findConnectedViews e (remainingViewIds : gset IndexT) : list IndexT :=
  let score := viewConnectionScore (_sfm_data e) (_map_tracks e) in
  merge_sort (scoreBefore score)
    (filter (λ viewId, (0 < score viewId)%N) (elements remainingViewIds)).

(** Modelled from the spec: the body of [findNextBestViews] is missing; the
    batch of the connected views that can be resected safely. *)
Definition findNextBestViews e (remainingViewIds : gset IndexT) : list IndexT :=
  let connected := findConnectedViews e remainingViewIds in
  filter (λ viewId, keptInBatch (_sfm_data e) connected viewId = true) connected.

(** Modelled from the spec: the body of [updateReconstruction] is missing;
    the views of the batch are resected, the successes are merged into the
    scene and leave the remaining views, new points are triangulated, the
    bundle adjustment runs and the outliers are removed. It returns the
    engine, the remaining views and the views it added. *)
Definition updateReconstruction (precision : float) e
    (bestViewIds : list IndexT) (viewIds reconstructed : gset IndexT) :
    ReconstructionEngine_sequentialSfM * gset IndexT * gset IndexT :=
  let newViews : gset IndexT := list_to_set (resectedViews e bestViewIds) in
  let e1 := mergeResections e bestViewIds in
  let e2 := set_sfm_data (λ s, triangulate e1 s reconstructed newViews) e1 in
  let e3 := match iterationBundleAdjustment e2 with
            | LocalBA => (localBundleAdjustment newViews e2).1
            | GlobalBA => (BundleAdjustment true e2).1
            end in
  let e4 := (removeOutliers precision e3).1 in
  (e4, viewIds ∖ newViews, newViews).

(** Modelled from the spec: a view is reconstructed exactly when the pose
    id it references exists in the pose collection; the test on a pointer
    to a view is [existsPose], a null pointer is no reconstructed view. *)
Definition isReconstructed (scene : SfMData) (view : option View) : bool :=
  match view with
  | Some v => existsPose scene v
  | None => false
  end.

(** Modelled from the spec: the reconstructed views of a scene, read in the
    scene itself. *)
Definition reconstructedViews (scene : SfMData) : gset IndexT :=
  dom (filter (λ kv : IndexT * option View, isReconstructed scene kv.2 = true)
              (views scene)).

(** The scene [after] has the views of [before], and a pose under every
    pose id that has one in [before]. *)
Definition keepsPoses (before after : SfMData) : Prop :=
  views after = views before ∧ dom (_poses before) ⊆ dom (_poses after).

(** Modelled from the spec: the state of the loop is the engine with its
    scene, which holds the reconstructed views, and the views that remain
    to reconstruct. *)
Record LoopState : Type := mkLoopState {
  loop_engine : ReconstructionEngine_sequentialSfM;
  remainingViewIds : gset IndexT;
}.

(** How one turn of the loop ends. *)
Inductive LoopStep : Type :=
  | NoMoreViews
  | Stalled (st : LoopState)
  | Continue (st : LoopState).

(** Modelled from the spec: one turn of the loop of
    [incrementalReconstruction]. With no view to select the loop ends; a
    pass after which the scene has no reconstructed view it did not have
    before, a pass that adds no pose, ends it too. *)
Definition iteration (precision : float) (st : LoopState) : LoopStep :=
  match findNextBestViews (loop_engine st) (remainingViewIds st) with
  | [] => NoMoreViews
  | bestViewIds =>
      let before := reconstructedViews (_sfm_data (loop_engine st)) in
      let '(e', remaining', _) :=
        updateReconstruction precision (loop_engine st) bestViewIds
          (remainingViewIds st) before in
      let st' := mkLoopState e' remaining' in
      if decide (reconstructedViews (_sfm_data e') ⊆ before)
      then Stalled st' else Continue st'
  end.

(** Modelled from the spec: the body of [incrementalReconstruction] is
    missing; the loop repeats the pass until it ends. The function returns
    the last state and the number of passes it ran, and [None] when the
    fuel runs out before the loop ends. *)
Fixpoint incrementalReconstructionLoop (fuel : nat) (precision : float)
    (st : LoopState) : option (LoopState * nat) :=
  match fuel with
  | O => None
  | S fuel' =>
      match iteration precision st with
      | NoMoreViews => Some (st, 0%nat)
      | Stalled st' => Some (st', 1%nat)
      | Continue st' =>
          match incrementalReconstructionLoop fuel' precision st' with
          | Some (st'', n) => Some (st'', S n)
          | None => None
          end
      end
  end.

(** Modelled from the spec: [incrementalReconstruction] starts from the
    views of the scene that are not reconstructed yet. *)
Definition incrementalReconstruction (precision : float) e :
    option (LoopState * nat) :=
  let remaining := GetViewsKeys (_sfm_data e) ∖ reconstructedViews (_sfm_data e) in
  incrementalReconstructionLoop (S (size remaining)) precision
    (mkLoopState e remaining).

(** Modelled from the spec: what the loop relies on from the code it calls
    and that is not part of the sources at hand. The solver is given
    parameter blocks (poses, intrinsics, points) and returns refined values
    of them: the refined scene has the views and the pose ids of the scene
    it was given. [setPose] on a view of a rig updates the rig pose and the
    sub-pose: it removes no view and no pose. *)
Record CollaboratorContracts : Prop := mkCollaboratorContracts {
  refine_returns_values :
    ∀ (scene : SfMData) selection fixedIntrinsics refined,
      refine scene selection fixedIntrinsics = Some refined →
      views refined = views scene ∧ dom (_poses refined) = dom (_poses scene);
  setRigViewPose_keeps_poses :
    ∀ (view : View) (p : Pose3) (scene : SfMData),
      views (setRigViewPose view p scene) = views scene
      ∧ dom (_poses scene) ⊆ dom (_poses (setRigViewPose view p scene));
}.

(** *** Initial pair *)

(** Modelled from the spec: the tracks two views share. *)
Definition sharedTracks e (pair : Pair) : gset IndexT :=
  dom (filter (λ kv : IndexT * gmap IndexT IndexT,
                 is_Some (kv.2 !! pair.1) ∧ is_Some (kv.2 !! pair.2))
              (_map_tracks e)).

(** Modelled from the spec: the body of [makeInitialPair3D] is missing; the
    first camera gets the pose t=0, R=Id and the second the relative pose
    estimated from the tracks the pair shares, the structure of the pair is
    triangulated, and the pair is given up, with the scene as it was, when
    the estimation fails or the structure is not valid. *)
Definition makeInitialPair3D e (initialPair : Pair) :
    option ReconstructionEngine_sequentialSfM :=
  match views (_sfm_data e) !! initialPair.1, views (_sfm_data e) !! initialPair.2 with
  | Some (Some vI), Some (Some vJ) =>
      match robustRelativePose (_sfm_data e) (sharedTracks e initialPair) initialPair with
      | None => None
      | Some relativePose =>
          let s1 := setPose vJ relativePose (setPose vI Pose3_identity (_sfm_data e)) in
          let s2 := triangulate e s1 ∅ {[initialPair.1; initialPair.2]} in
          if validInitialStructure (structure s2)
          then Some (set_sfm_data (λ _, s2) e)
          else None
      end
  | _, _ => None
  end.

(** Modelled from the spec: the body of [createInitialReconstruction] is
    missing; the candidates are tried in order, the first that makes an
    initial 3D seed is used, and the failure of all of them is fatal. *)
Fixpoint createInitialReconstruction e (initialImagePairCandidates : list Pair) :
    Result ReconstructionEngine_sequentialSfM :=
  match initialImagePairCandidates with
  | [] => Throw (std_runtime_error "no valid initial pair")
  | initialPair :: rest =>
      match makeInitialPair3D e initialPair with
      | Some e' => Ok e'
      | None => createInitialReconstruction e rest
      end
  end.

(** Modelled from the spec: the body of [getBestInitialImagePairs] is
    missing; the candidate pairs in descending score order. *)
Definition getBestInitialImagePairs e : list Pair :=
  let score := initialPairScore (_sfm_data e) (_map_tracks e) in
  merge_sort (scoreBefore score)
    (initialPairCandidates (_sfm_data e) (_map_tracks e)).

End Pipeline.

(** ** The rest of the scene container ([sfm/SfMData.hpp]) *)

Section SceneAccessors.
Context `{Geometry}.

(** [Rig::reset()] ([sfm/Rig.hpp], not part of the sources at hand), taken as
    a parameter. *)
Variable Rig_reset : Rig → Rig.

(** [GetIntrinsicSharedPtr]: the shared pointer stored under the id, or
    null. *)
Definition GetIntrinsicSharedPtr (s : SfMData) (intrinsicId : IndexT) :
    option IntrinsicBase :=
  if map_has (intrinsics s) intrinsicId
  then default None (intrinsics s !! intrinsicId)
  else None.

(** The loop of [GetViewsKeys]: every entry of [views] is visited and its
    key inserted into the set being built. *)
Definition GetViewsKeys_loop (s : SfMData) : gset IndexT :=
  foldl (λ (viewKeys : gset IndexT) (v : IndexT * option View), viewKeys ∪ {[v.1]})
        ∅ (map_to_list (views s)).

Definition set_featuresFolders (f : list string → list string) (s : SfMData) : SfMData :=
  mkSfMData (views s) (intrinsics s) (structure s) (control_points s)
            (f (_featuresFolders s)) (_matchesFolders s) (_poses s) (_rigs s).

Definition set_matchesFolders (f : list string → list string) (s : SfMData) : SfMData :=
  mkSfMData (views s) (intrinsics s) (structure s) (control_points s)
            (_featuresFolders s) (f (_matchesFolders s)) (_poses s) (_rigs s).

Definition set_rigs (f : gmap IndexT Rig → gmap IndexT Rig) (s : SfMData) : SfMData :=
  mkSfMData (views s) (intrinsics s) (structure s) (control_points s)
            (_featuresFolders s) (_matchesFolders s) (_poses s) (f (_rigs s)).

(** [addFeaturesFolder]: [emplace_back] on the vector. *)
Definition addFeaturesFolder (featuresFolder : string) (s : SfMData) : SfMData :=
  set_featuresFolders (λ folders, folders ++ [featuresFolder]) s.

Definition addMatchesFolder (matchesFolder : string) (s : SfMData) : SfMData :=
  set_matchesFolders (λ folders, folders ++ [matchesFolder]) s.

Definition setFeaturesFolders (featuresFolders : list string) (s : SfMData) : SfMData :=
  set_featuresFolders (λ _, featuresFolders) s.

Definition setMatchesFolders (matchesFolders : list string) (s : SfMData) : SfMData :=
  set_matchesFolders (λ _, matchesFolders) s.

(** The four folder calls, and a sequence of them run on a scene. *)
Inductive FolderCall : Type :=
  | CallAddFeaturesFolder (folder : string)
  | CallAddMatchesFolder (folder : string)
  | CallSetFeaturesFolders (folders : list string)
  | CallSetMatchesFolders (folders : list string).

Definition runFolderCall (s : SfMData) (c : FolderCall) : SfMData :=
  match c with
  | CallAddFeaturesFolder folder => addFeaturesFolder folder s
  | CallAddMatchesFolder folder => addMatchesFolder folder s
  | CallSetFeaturesFolders folders => setFeaturesFolders folders s
  | CallSetMatchesFolders folders => setMatchesFolders folders s
  end.

(** The features folders a sequence of calls leaves, from the ones before
    it: a set call replaces them and an add call appends to them. *)
Fixpoint featuresFoldersAfter (cs : list FolderCall) (folders : list string) : list string :=
  match cs with
  | [] => folders
  | CallAddFeaturesFolder folder :: cs' => featuresFoldersAfter cs' (folders ++ [folder])
  | CallSetFeaturesFolders folders' :: cs' => featuresFoldersAfter cs' folders'
  | _ :: cs' => featuresFoldersAfter cs' folders
  end.

Fixpoint matchesFoldersAfter (cs : list FolderCall) (folders : list string) : list string :=
  match cs with
  | [] => folders
  | CallAddMatchesFolder folder :: cs' => matchesFoldersAfter cs' (folders ++ [folder])
  | CallSetMatchesFolders folders' :: cs' => matchesFoldersAfter cs' folders'
  | _ :: cs' => matchesFoldersAfter cs' folders
  end.

(** [resetRigs]. The range-based loop declares its variable with [auto], not
    [auto&]: each turn copies an entry of [_rigs], resets the copy, and the
    copy is gone when the turn ends. *)
Definition resetRigs (s : SfMData) : SfMData :=
  foldl
    (λ (acc : SfMData) (entry : IndexT * Rig),
       let rigIt : IndexT * Rig := entry in
       let rigIt_after : IndexT * Rig := (rigIt.1, Rig_reset rigIt.2) in
       acc)
    s (map_to_list (_rigs s)).

End SceneAccessors.

(** ** Configuration calls of the engine, by the member they write *)

Section ConfigCalls.
Context `{Geometry} `{Externals}.

(** The member a configuration call writes, by the position of the setter
    in the header; the two calls of the local bundle adjustment write
    [_localBA_data]. *)
Definition writtenMember (c : ConfigCall) : nat :=
  match c with
  | CallSetFeatures _ => 0
  | CallSetMatches _ => 1
  | CallSetInitialPair _ => 2
  | CallSetMinTrackLength _ => 3
  | CallSetMinInputTrackLength _ => 4
  | CallSetIntermediateFileExtension _ => 5
  | CallSetNbOfObservationsForTriangulation _ => 6
  | CallSetLocalBundleAdjustmentGraphDistance _ => 7
  | CallSetUseLocalBundleAdjustmentStrategy _ => 7
  | CallSetLocalizerEstimator _ => 8
  end%nat.

End ConfigCalls.

(** ** The quality evaluation tool ([software/utils/main_qualityEvaluation.cpp])

    The loop of [main] that fills the vectors of camera centres and
    rotations handed to the evaluation, from the scene to evaluate and the
    ground truth scene. *)

(** The conversion of an [IndexT] to [int], as [const int idPoseGT = ...]
    makes it, and of an [int] to [IndexT], as the argument of [at] makes it:
    both are 32 bits wide and the value is kept modulo 2^32. *)
Definition int_of_IndexT (i : IndexT) : Z :=
  let z := (Z.of_N i mod 2 ^ 32)%Z in
  if (z <? 2 ^ 31)%Z then z else (z - 2 ^ 32)%Z.

Definition IndexT_of_int (z : Z) : IndexT := Z.to_N (z mod 2 ^ 32).

(** [p->] on a shared pointer. *)
Definition deref {A : Type} (p : option A) : Result A :=
  match p with
  | Some a => Ok a
  | None => Throw null_dereference
  end.

Section QualityEvaluation.
Context `{Geometry}.

(** [Mat3], [pose.center()] and [pose.rotation()] ([geometry/Pose3.hpp], not
    part of the sources at hand), taken as parameters. *)
Variable Mat3 : Type.
Variable Pose3_center : Pose3 → Vec3.
Variable Pose3_rotation : Pose3 → Mat3.

(** The four vectors the loop fills. *)
Record EvaluationVectors : Type := mkEvaluationVectors {
  vec_camPosGT : list Vec3;
  vec_C : list Vec3;
  vec_camRotGT : list Mat3;
  vec_camRot : list Mat3;
}.

(** One turn of the loop on an entry of the views of the scene to evaluate:
    the view is skipped when its pose id has no pose in that scene, and
    when its view id is not a view of the ground truth; otherwise the
    centre and the rotation of the ground truth pose, then those of the
    evaluated pose, are pushed at the back of their vectors. *)
Definition evaluationTurn (sfmData sfmData_gt : SfMData)
    (acc : EvaluationVectors) (iter : IndexT * option View) :
    Result EvaluationVectors :=
  view ← deref iter.2;
  if negb (map_has (_poses sfmData) (getPoseId view)) then Ok acc
  else if negb (map_has (views sfmData_gt) (getViewId view)) then Ok acc
  else
    gtPtr ← map_at (views sfmData_gt) (getViewId view);
    gtView ← deref gtPtr;
    let idPoseGT : Z := int_of_IndexT (getPoseId gtView) in
    pose_gt ← map_at (_poses sfmData_gt) (IndexT_of_int idPoseGT);
    let acc1 :=
      mkEvaluationVectors
        (vec_camPosGT acc ++ [Pose3_center pose_gt]) (vec_C acc)
        (vec_camRotGT acc ++ [Pose3_rotation pose_gt]) (vec_camRot acc) in
    pose_eval ← map_at (_poses sfmData) (getPoseId view);
    Ok (mkEvaluationVectors
          (vec_camPosGT acc1) (vec_C acc1 ++ [Pose3_center pose_eval])
          (vec_camRotGT acc1) (vec_camRot acc1 ++ [Pose3_rotation pose_eval])).

Fixpoint evaluationLoop (sfmData sfmData_gt : SfMData)
    (entries : list (IndexT * option View)) (acc : EvaluationVectors) :
    Result EvaluationVectors :=
  match entries with
  | [] => Ok acc
  | iter :: rest =>
      acc' ← evaluationTurn sfmData sfmData_gt acc iter;
      evaluationLoop sfmData sfmData_gt rest acc'
  end.

(** The loop over [sfmData.GetViews()], from four empty vectors. *)
Definition fillEvaluationVectors (sfmData sfmData_gt : SfMData) :
    Result EvaluationVectors :=
  evaluationLoop sfmData sfmData_gt (map_to_list (views sfmData))
    (mkEvaluationVectors [] [] [] []).

(** A view the loop does not skip: it has a pose in the scene to evaluate
    and its id is a view of the ground truth. *)
Definition isEvaluated (sfmData sfmData_gt : SfMData)
    (iter : IndexT * option View) : bool :=
  match iter.2 with
  | Some view =>
      map_has (_poses sfmData) (getPoseId view)
      && map_has (views sfmData_gt) (getViewId view)
  | None => false
  end.

(** What the loop needs to run to its end: no null pointer among the views
    to evaluate and, for each view it does not skip, a ground truth view
    that is not null and whose pose exists in the ground truth. *)
Definition evaluable (sfmData sfmData_gt : SfMData) : Prop :=
  ∀ viewId viewPtr,
    views sfmData !! viewId = Some viewPtr →
    ∃ view, viewPtr = Some view
      ∧ (is_Some (_poses sfmData !! getPoseId view) →
         ∀ gtPtr, views sfmData_gt !! getViewId view = Some gtPtr →
           ∃ gtView, gtPtr = Some gtView
             ∧ is_Some (_poses sfmData_gt
                          !! IndexT_of_int (int_of_IndexT (getPoseId gtView)))).

(** The four vectors have one length. *)
Definition sameLengths (ev : EvaluationVectors) : Prop :=
  length (vec_camPosGT ev) = length (vec_C ev)
  ∧ length (vec_camRotGT ev) = length (vec_C ev)
  ∧ length (vec_camRot ev) = length (vec_C ev).

(** The vectors after the poses of one more view are pushed. *)
Definition pushEvaluation (acc : EvaluationVectors) (pose_gt pose_eval : Pose3) :
    EvaluationVectors :=
  mkEvaluationVectors
    (vec_camPosGT acc ++ [Pose3_center pose_gt])
    (vec_C acc ++ [Pose3_center pose_eval])
    (vec_camRotGT acc ++ [Pose3_rotation pose_gt])
    (vec_camRot acc ++ [Pose3_rotation pose_eval]).

(** What a turn needs to run to its end on an entry. *)
Definition turnRuns (sfmData sfmData_gt : SfMData)
    (iter : IndexT * option View) : Prop :=
  ∃ view, iter.2 = Some view
    ∧ (is_Some (_poses sfmData !! getPoseId view) →
       ∀ gtPtr, views sfmData_gt !! getViewId view = Some gtPtr →
         ∃ gtView, gtPtr = Some gtView
           ∧ is_Some (_poses sfmData_gt
                        !! IndexT_of_int (int_of_IndexT (getPoseId gtView)))).

(** The entry of index [i] of the four vectors comes from one view: the
    evaluated camera is the pose of that view in the scene to evaluate, and
    the ground truth camera is the pose of the ground truth view of the same
    view id. *)
Definition alignedAt (sfmData sfmData_gt : SfMData)
    (ev : EvaluationVectors) (i : nat) : Prop :=
  ∃ viewId view gtView pose_eval pose_gt,
    views sfmData !! viewId = Some (Some view)
    ∧ _poses sfmData !! getPoseId view = Some pose_eval
    ∧ views sfmData_gt !! getViewId view = Some (Some gtView)
    ∧ _poses sfmData_gt !! IndexT_of_int (int_of_IndexT (getPoseId gtView))
      = Some pose_gt
    ∧ vec_camPosGT ev !! i = Some (Pose3_center pose_gt)
    ∧ vec_C ev !! i = Some (Pose3_center pose_eval)
    ∧ vec_camRotGT ev !! i = Some (Pose3_rotation pose_gt)
    ∧ vec_camRot ev !! i = Some (Pose3_rotation pose_eval).

End QualityEvaluation.

(** ** The a-contrario kernel of the translation triplet
    ([sfm/pipeline/global/TranslationTripletKernelACRansac.hpp]) *)

(** A call that has undefined behaviour on some inputs: an access out of the
    bounds of a [std::vector] or past the last column of a matrix. *)
Inductive Outcome (A : Type) : Type :=
  | Defined (a : A)
  | Undefined.
Arguments Defined {A} a.
Arguments Undefined {A}.

(** [v[i] = f(v[i])] on a [std::vector]. *)
Definition vector_update {A : Type} (v : list A) (i : nat) (f : A → A) :
    Outcome (list A) :=
  match v !! i with
  | Some a => Defined (<[i := f a]> v)
  | None => Undefined
  end.

Section TranslationTripletKernel.

(** The matrix types and operations, the solver and the error of the
    template arguments ([numeric/numeric.hpp], [multiview/conditioning.hpp]
    and the instantiation are not part of the sources at hand), taken as
    parameters. A matrix of points [Mat] is the list of its columns. *)
Variable Mat3 : Type.
Variable Vec : Type.
Variable Model : Type.
Variable Mat3_mul : Mat3 → Mat3 → Mat3.
Variable Mat3_inverse : Mat3 → Mat3.
Variable ApplyTransformationToPoints : list Vec → Mat3 → list Vec.
Variable ErrorArg_Error : Model → Vec → Vec → Vec → float.
Variable log10_pi : float.

Record TranslationTripletKernelACRansac : Type := mkKernel {
  x1_ : list Vec;
  x2_ : list Vec;
  x3_ : list Vec;
  x1n_ : list Vec;
  x2n_ : list Vec;
  x3n_ : list Vec;
  Kinv_ : Mat3;
  K_ : Mat3;
  logalpha0_ : float;
  ThresholdUpperBound_ : float;
  vec_KR_ : list Mat3;
}.

(** The constructor: the points are normalized by the inverse of [K], and
    the first three matrices of [vec_KR_] are multiplied by it on the
    left, through [operator[]]. *)
Definition newKernel (x1 x2 x3 : list Vec) (vec_KRi : list Mat3) (K : Mat3)
    (ThresholdUpperBound : float) : Outcome TranslationTripletKernelACRansac :=
  let Kinv := Mat3_inverse K in
  let x1n := ApplyTransformationToPoints x1 Kinv in
  let x2n := ApplyTransformationToPoints x2 Kinv in
  let x3n := ApplyTransformationToPoints x3 Kinv in
  match vector_update vec_KRi 0 (Mat3_mul Kinv) with
  | Undefined => Undefined
  | Defined v0 =>
      match vector_update v0 1 (Mat3_mul Kinv) with
      | Undefined => Undefined
      | Defined v1 =>
          match vector_update v1 2 (Mat3_mul Kinv) with
          | Undefined => Undefined
          | Defined v2 =>
              Defined (mkKernel x1 x2 x3 x1n x2n x3n Kinv K log10_pi
                         ThresholdUpperBound v2)
          end
      end
  end.

(** [m.col(sample)]. *)
Definition col (m : list Vec) (sample : nat) : Outcome Vec :=
  match m !! sample with
  | Some c => Defined c
  | None => Undefined
  end.

Definition NumSamples (k : TranslationTripletKernelACRansac) : nat :=
  length (x1n_ k).

(** [Error(sample, model)]. *)
Definition Error (k : TranslationTripletKernelACRansac) (sample : nat)
    (model : Model) : Outcome float :=
  match col (x1n_ k) sample, col (x2n_ k) sample, col (x3n_ k) sample with
  | Defined c1, Defined c2, Defined c3 => Defined (ErrorArg_Error model c1 c2 c3)
  | _, _, _ => Undefined
  end.

(** The loop of [Errors]: [remaining] turns are left and the next one is on
    [sample]. *)
Fixpoint Errors_loop (k : TranslationTripletKernelACRansac) (model : Model)
    (remaining sample : nat) (vec_errors : list float) : Outcome (list float) :=
  match remaining with
  | O => Defined vec_errors
  | S remaining' =>
      match Error k sample model with
      | Undefined => Undefined
      | Defined err =>
          match vec_errors !! sample with
          | None => Undefined
          | Some _ =>
              Errors_loop k model remaining' (S sample) (<[sample := err]> vec_errors)
          end
      end
  end.

(** [Errors(model, vec_errors)]: [sample] runs from 0 to the number of
    columns of [x1n_]. *)
Definition Errors (k : TranslationTripletKernelACRansac) (model : Model)
    (vec_errors : list float) : Outcome (list float) :=
  Errors_loop k model (length (x1n_ k)) 0 vec_errors.

Definition logalpha0 (k : TranslationTripletKernelACRansac) : float := logalpha0_ k.
Definition multError (k : TranslationTripletKernelACRansac) : float := 1%float.
Definition normalizer1 (k : TranslationTripletKernelACRansac) : Mat3 := Kinv_ k.

End TranslationTripletKernel.

(** ** Sample instances

    A small computable instance of the parameters, used to run the
    definitions on concrete scenes: poses are the affine maps [x ↦ a x + b]
    of the integer line under composition, points and image positions are
    integers, an intrinsic is a focal factor. *)
Module Sample.

Definition float_of_Z (z : Z) : float :=
  if (z <? 0)%Z then PrimFloat.opp (PrimFloat.of_uint63 (Uint63.of_Z (- z)))
  else PrimFloat.of_uint63 (Uint63.of_Z z).

Definition geometry : Geometry :=
  {| Pose3 := Z * Z;
     Vec3 := Z;
     Vec2 := Z;
     IntrinsicBase := Z;
     Pose3_identity := (1, 0)%Z;
     Pose3_mul := λ p q, (p.1 * q.1, p.1 * q.2 + p.2)%Z;
     Pose3_depth := λ p pt, float_of_Z (p.1 * pt + p.2);
     AngleBetweenRays := λ p q pt, float_of_Z (Z.abs (p.2 - q.2));
     residualNorm := λ k p pt obs, float_of_Z (Z.abs (k * (p.1 * pt + p.2) - obs)) |}.

Definition externals : Externals :=
  {| FeaturesPerView := unit;
     PairwiseMatches := unit;
     ERobustEstimator := nat;
     ACRANSAC := 0%nat;
     FileSystem := list string;
     folder_append_separator := λ dir, dir +:+ "/";
     folder_exists := λ dir fs, bool_decide (dir ∈ fs);
     folder_delete := λ dir _ fs, filter (λ d, d ≠ dir) fs;
     folder_create := λ dir fs, dir :: fs;
     initialGraphDistanceLimit := 1 |}.

Definition view (id intrinsicId poseId : IndexT) : View :=
  mkView id intrinsicId poseId UndefinedIndexT UndefinedIndexT.

Definition rigView (id intrinsicId poseId rigId subPoseId : IndexT) : View :=
  mkView id intrinsicId poseId rigId subPoseId.

Definition emptyScene : @SfMData geometry :=
  @mkSfMData geometry ∅ ∅ ∅ ∅ [] [] ∅ ∅.

(** Two plain views 0 and 1 and a rig view 2 (rig 7, sub-pose 0); poses
    exist for pose ids 0 and 5, intrinsic 0 is shared. *)
Definition rigScene : @SfMData geometry :=
  @mkSfMData geometry
    (<[0 := Some (view 0 0 0)]> (<[1 := Some (view 1 0 1)]>
       (<[2 := Some (rigView 2 0 5 7 0)]> ∅)))
    (<[0 := Some 2%Z]> ∅)
    ∅ ∅ [] []
    (<[0 := (1, 0)%Z]> (<[5 := (2, 3)%Z]> ∅))
    (<[7 := @mkRig geometry [@mkRigSubPose geometry ESTIMATED (3, 1)%Z;
                             @mkRigSubPose geometry UNINITIALIZED (1, 0)%Z]]> ∅).

Definition estimators : @Estimators geometry externals :=
  @Build_Estimators geometry externals
    (* featurePosition: where the point 5 projects, off by the feature id *)
    (λ _ viewId featId,
       (5 + (if (viewId =? 0)%N then 0 else if (viewId =? 1)%N then 1 else 10)
          + (Z.of_N featId - 7))%Z)
    (* multiViewTriangulation: track 1 lands behind the cameras *)
    (λ _ trackId obsViews,
       Some (if (trackId =? 1)%N then (-20)%Z else 5%Z, obsViews))
    (* robustPoseEstimation: no model for view 9 *)
    (λ _ _ viewIndex tracks,
       if (viewIndex =? 9)%N then None
       else Some ((1, Z.of_N viewIndex)%Z, tracks, None))
    (* degenerateInliers: view 8 *)
    (λ _ viewIndex _, (viewIndex =? 8)%N)
    (* robustRelativePose: from at least one shared track *)
    (λ _ shared _, if decide (shared = ∅) then None else Some (1, 10)%Z)
    (* validInitialStructure *)
    (λ landmarks, negb (bool_decide (landmarks = ∅)))
    (* initialPairCandidates, initialPairScore *)
    (λ _ _, [(0, 1); (3, 4); (0, 2)])
    (λ _ _ pair, pair.1 + pair.2)
    (* viewConnectionScore, keptInBatch *)
    (λ _ tracks viewId,
       N.of_nat (size (filter (λ kv : IndexT * gmap IndexT IndexT,
                                 is_Some (kv.2 !! viewId)) tracks)))
    (λ _ _ _, true)
    (* refine: no convergence *)
    (λ _ _ _, None)
    (* setRigViewPose *)
    (λ _ _ s, s)
    (* iterationBundleAdjustment: the local strategy under the flag *)
    (λ e, if _uselocalBundleAdjustment e then LocalBA else GlobalBA).

(** Three plain views 0, 1, 2 sharing intrinsic 0, no pose yet. *)
Definition threeViews : @SfMData geometry :=
  @mkSfMData geometry
    (<[0 := Some (view 0 0 0)]> (<[1 := Some (view 1 0 1)]>
       (<[2 := Some (view 2 0 2)]> ∅)))
    (<[0 := Some 1%Z]> ∅)
    ∅ ∅ [] [] ∅ ∅.

(** Tracks 0 and 1 are seen by views 0 and 1, and tracks 100 to 129 by views
    0, 1 and 2. *)
Definition sampleTracks : gmap IndexT (gmap IndexT IndexT) :=
  <[0 := <[0 := 0]> (<[1 := 0]> ∅)]>
    (<[1 := <[0 := 1]> (<[1 := 1]> ∅)]>
       (list_to_map
          (map (λ i : nat, (N.of_nat (100 + i),
                            <[0 := 7]> (<[1 := 7]> (<[2 := 7]> ∅))))
               (seq 0 30)))).

Definition with_tracks (tracks : gmap IndexT (gmap IndexT IndexT))
    (e : @ReconstructionEngine_sequentialSfM geometry externals) :
    @ReconstructionEngine_sequentialSfM geometry externals :=
  @mkEngine geometry externals (_sfm_data e) (_sOutDirectory e)
    (_userInitialImagePair e) (_minInputTrackLength e) (_minTrackLength e)
    (_minPointsPerPose e) (_uselocalBundleAdjustment e)
    (_minNbObservationsForTriangulation e) (_minAngleForTriangulation e)
    (_localizerEstimator e) (_featuresPerView e) (_pairwiseMatches e)
    tracks (_localBA_data e) (_sfmdataInterFileExtension e).

Definition engine0 : @ReconstructionEngine_sequentialSfM geometry externals :=
  with_tracks sampleTracks (@newEngine geometry externals threeViews "out").

(** The views 0 and 1 posed one unit of angle apart and ten apart. *)
Definition posedNear : @SfMData geometry :=
  @setAbsolutePose geometry 1 (1, 1)%Z
    (@setAbsolutePose geometry 0 (1, 0)%Z threeViews).

Definition posedFar : @SfMData geometry :=
  @setAbsolutePose geometry 1 (1, 10)%Z
    (@setAbsolutePose geometry 0 (1, 0)%Z threeViews).

Definition engineNear : @ReconstructionEngine_sequentialSfM geometry externals :=
  with_tracks sampleTracks (@newEngine geometry externals posedNear "out").

Definition engineFar : @ReconstructionEngine_sequentialSfM geometry externals :=
  with_tracks sampleTracks (@newEngine geometry externals posedFar "out").

(** The engine after the seed, the candidates taken in descending score
    order. *)
Definition seeded : @ReconstructionEngine_sequentialSfM geometry externals :=
  match @createInitialReconstruction geometry externals estimators engine0
          (@getBestInitialImagePairs geometry externals estimators engine0)
  with
  | Ok e => e
  | Throw _ => engine0
  end.

(** The loop about to start: views 0 and 2 are the seed, view 1 remains. *)
Definition afterSeed : @LoopState geometry externals :=
  @mkLoopState geometry externals seeded {[1]}.

(** The same scene with a null pointer stored for the view 1. *)
Definition nullView : @LoopState geometry externals :=
  @mkLoopState geometry externals
    (@set_sfm_data geometry externals
       (λ s, @mkSfMData geometry (<[1 := None]> (views s)) (intrinsics s)
               (structure s) (control_points s) (_featuresFolders s)
               (_matchesFolders s) (_poses s) (_rigs s))
       seeded)
    {[1]}.

(** The estimators above with a test that takes any initial structure for
    valid, and a solver that converges: it moves every centre by one. *)
Definition permissive : @Estimators geometry externals :=
  @Build_Estimators geometry externals
    (@featurePosition geometry externals estimators)
    (@multiViewTriangulation geometry externals estimators)
    (@robustPoseEstimation geometry externals estimators)
    (@degenerateInliers geometry externals estimators)
    (@robustRelativePose geometry externals estimators)
    (λ _, true)
    (@initialPairCandidates geometry externals estimators)
    (@initialPairScore geometry externals estimators)
    (@viewConnectionScore geometry externals estimators)
    (@keptInBatch geometry externals estimators)
    (λ s _ _, Some (@set_poses geometry (fmap (λ p : Z * Z, (p.1, p.2 + 1)%Z)) s))
    (@setRigViewPose geometry externals estimators)
    (@iterationBundleAdjustment geometry externals estimators).



(** A file system without any folder. *)
Definition noFolders : @FileSystem externals := [].

(** A ground truth for [rigScene]: the views 0 and 2, both posed. *)
Definition gtScene : @SfMData geometry :=
  @mkSfMData geometry
    (<[0 := Some (view 0 0 0)]> (<[2 := Some (view 2 0 5)]> ∅))
    (<[0 := Some 2%Z]> ∅)
    ∅ ∅ [] []
    (<[0 := (1, 1)%Z]> (<[5 := (2, 4)%Z]> ∅))
    ∅.

(** A ground truth whose view 2 has no pose. *)
Definition gtSceneNoPose : @SfMData geometry :=
  @mkSfMData geometry
    (<[0 := Some (view 0 0 0)]> (<[2 := Some (view 2 0 5)]> ∅))
    (<[0 := Some 2%Z]> ∅)
    ∅ ∅ [] []
    (<[0 := (1, 1)%Z]> ∅)
    ∅.

(** The centre and the rotation of an affine map of the sample geometry. *)
Definition center (p : @Pose3 geometry) : @Vec3 geometry := snd (p : Z * Z).
Definition rotation (p : @Pose3 geometry) : Z := fst (p : Z * Z).

(** A kernel on integers: three matrices of two points each, [K] is 2 and
    its "inverse" the opposite. *)
Definition kernelError (model a b c : Z) : float := float_of_Z (model + a + b + c).

Definition kernel : Outcome (TranslationTripletKernelACRansac Z Z) :=
  newKernel Z Z Z.mul Z.opp (λ pts h, map (Z.mul h) pts) 0%float
    [1; 2]%Z [3; 4]%Z [5; 6]%Z [10; 20; 30; 40]%Z 2%Z 1%float.

End Sample.

(** * Properties *)

Section SceneProperties.
Context `{Geometry}.

Lemma map_has_true {V} (m : gmap IndexT V) k : map_has m k = true ↔ is_Some (m !! k).
Proof. unfold map_has. by rewrite bool_decide_eq_true. Qed.

Lemma neqb_true (a b : N) : negb (a =? b) = true ↔ a ≠ b.
Proof. rewrite negb_true_iff. apply N.eqb_neq. Qed.

Lemma and_then_true (a b : Result bool) :
  a &&& b = Ok true ↔ a = Ok true ∧ b = Ok true.
Proof.
  unfold and_then. destruct a as [[]|e]; simpl; split; try tauto;
    try (intros [? ?]; congruence); intros; congruence.
Qed.

Lemma map_at_Ok {V} (m : gmap IndexT V) k v : map_at m k = Ok v ↔ m !! k = Some v.
Proof. unfold map_at. destruct (m !! k); split; congruence. Qed.

(** The sub-pose of a view of a rig, read in the scene: the rig stored under
    the view's rig id and, in it, the sub-pose at the view's sub-pose id. *)
Lemma getRigSubPose_Ok (s : SfMData) (v : View) (sp : RigSubPose) :
  getRigId v ≠ UndefinedIndexT →
  getRigSubPose s v = Ok sp ↔
  ∃ rig, _rigs s !! getRigId v = Some rig
       ∧ _subPoses rig !! N.to_nat (getSubPoseId v) = Some sp.
Proof.
  intros Hrig. apply neqb_true in Hrig.
  unfold getRigSubPose, isPartOfRig, map_at, getSubPose. rewrite Hrig. simpl.
  destruct (_rigs s !! getRigId v) as [rig|]; simpl.
  - destruct (_subPoses rig !! N.to_nat (getSubPoseId v)) as [sp'|] eqn:Hsp.
    + split.
      * intros [= <-]. by exists rig.
      * intros (rig' & [= <-] & Hsp'). rewrite Hsp in Hsp'. congruence.
    + split; [discriminate|].
      intros (rig' & [= <-] & Hsp'). rewrite Hsp in Hsp'. discriminate.
  - split; [discriminate | intros (rig & ? & _); discriminate].
Qed.

(** What [getRigSubPose] throws on a view of a rig whose rig, or whose
    sub-pose in the rig, is not in the scene. *)
Lemma getRigSubPose_missing (s : SfMData) (v : View) :
  getRigId v ≠ UndefinedIndexT →
  (_rigs s !! getRigId v = None →
     getRigSubPose s v = Throw (std_out_of_range "map::at")) ∧
  (∀ rig, _rigs s !! getRigId v = Some rig →
     _subPoses rig !! N.to_nat (getSubPoseId v) = None →
     getRigSubPose s v = Throw (std_out_of_range "vector::at")).
Proof.
  intros Hrig. apply neqb_true in Hrig.
  unfold getRigSubPose, isPartOfRig, map_at, getSubPose. rewrite Hrig. simpl.
  split.
  - by intros ->.
  - intros rig -> Hsp. simpl. by rewrite Hsp.
Qed.

(** C1: [IsPoseAndIntrinsicDefined] returns [true] exactly when the view
    pointer is not null, the intrinsic id is defined and present in the
    intrinsics, the pose id is defined and present in the poses and, for a
    view of a rig (a view whose rig id is defined), the rigs of the scene
    hold a rig under the view's rig id, this rig holds a sub-pose at the
    view's sub-pose id, and the status of this sub-pose is not
    [UNINITIALIZED]. *)
Theorem IsPoseAndIntrinsicDefined_iff (s : SfMData) (view : option View) :
  IsPoseAndIntrinsicDefined s view = Ok true ↔
  ∃ v, view = Some v
    ∧ getIntrinsicId v ≠ UndefinedIndexT
    ∧ is_Some (intrinsics s !! getIntrinsicId v)
    ∧ getPoseId v ≠ UndefinedIndexT
    ∧ is_Some (_poses s !! getPoseId v)
    ∧ (getRigId v ≠ UndefinedIndexT →
       ∃ rig sp, _rigs s !! getRigId v = Some rig
               ∧ _subPoses rig !! N.to_nat (getSubPoseId v) = Some sp
               ∧ status sp ≠ UNINITIALIZED).
Proof.
  destruct view as [v|]; simpl.
  2: { split; [discriminate | intros (v & ? & _); discriminate]. }
  rewrite !and_then_true.
  assert (Hrig :
    (if negb (isPartOfRig v) then Ok true
     else getRigSubPose s v ≫= λ sp,
            Ok (negb (bool_decide (status sp = UNINITIALIZED)))) = Ok true ↔
    (getRigId v ≠ UndefinedIndexT →
       ∃ rig sp, _rigs s !! getRigId v = Some rig
               ∧ _subPoses rig !! N.to_nat (getSubPoseId v) = Some sp
               ∧ status sp ≠ UNINITIALIZED)).
  { destruct (isPartOfRig v) eqn:Hpart; simpl.
    - assert (Hid : getRigId v ≠ UndefinedIndexT) by by apply neqb_true.
      destruct (getRigSubPose s v) as [sp|e] eqn:Hsp; simpl.
      + apply (getRigSubPose_Ok s v sp Hid) in Hsp as (rig & Hr & Hs).
        split.
        * intros Hst _. exists rig, sp. split; [done|]. split; [done|].
          intros Hu. rewrite bool_decide_eq_true_2 in Hst by done. discriminate.
        * intros Hst. destruct (Hst Hid) as (rig' & sp' & Hr' & Hs' & Hne).
          rewrite Hr in Hr'. simplify_eq.
          by rewrite bool_decide_eq_false_2.
      + split; [discriminate|].
        intros Hst. destruct (Hst Hid) as (rig & sp & Hr & Hs & _).
        assert (getRigSubPose s v = Ok sp) as Hok
          by (apply getRigSubPose_Ok; eauto).
        rewrite Hsp in Hok. discriminate.
    - split; [|done]. intros _ Hid. apply neqb_true in Hid.
      unfold isPartOfRig in Hpart. congruence. }
  split.
  - intros [[[[Hi Hp] Hr] Hmi] Hmp].
    exists v. repeat split.
    + apply neqb_true. congruence.
    + apply map_has_true. congruence.
    + apply neqb_true. congruence.
    + apply map_has_true. congruence.
    + by apply Hrig.
  - intros (v' & [= <-] & Hi & Hmi & Hp & Hmp & Hr).
    repeat split.
    + f_equal. by apply neqb_true.
    + f_equal. by apply neqb_true.
    + by apply Hrig.
    + f_equal. by apply map_has_true.
    + f_equal. by apply map_has_true.
Qed.

(** C2 (amended): when the pose id of a view is present in the poses,
    [getPose] returns that pose for a view outside any rig. For a view of a
    rig it returns the product [subPose * rigPose] of the camera's sub-pose
    with the pose stored under the view's pose id when the rigs of the scene
    hold the view's rig and this rig holds a sub-pose at the view's sub-pose
    id; when the rig, or the sub-pose in the rig, is missing, the call
    throws [std::out_of_range] and returns no pose. *)
Theorem getPose_spec (s : SfMData) (view : View) (p : Pose3) :
  _poses s !! getPoseId view = Some p →
  (getRigId view = UndefinedIndexT → getPose s view = Ok p) ∧
  (getRigId view ≠ UndefinedIndexT →
     (∀ rig sp, _rigs s !! getRigId view = Some rig →
                _subPoses rig !! N.to_nat (getSubPoseId view) = Some sp →
                getPose s view = Ok (Pose3_mul (pose sp) p)) ∧
     (_rigs s !! getRigId view = None →
        getPose s view = Throw (std_out_of_range "map::at")) ∧
     (∀ rig, _rigs s !! getRigId view = Some rig →
             _subPoses rig !! N.to_nat (getSubPoseId view) = None →
             getPose s view = Throw (std_out_of_range "vector::at"))).
Proof.
  intros Hp. unfold getPose, getRigPose.
  apply map_at_Ok in Hp. rewrite Hp. split.
  - intros Hid. unfold isPartOfRig. rewrite Hid. reflexivity.
  - intros Hid. assert (isPartOfRig view = true) as -> by by apply neqb_true.
    simpl. destruct (getRigSubPose_missing s view Hid) as [Hnorig Hnosub].
    split; [|split].
    + intros rig sp Hr Hs.
      assert (getRigSubPose s view = Ok sp) as ->
        by (apply getRigSubPose_Ok; eauto).
      reflexivity.
    + intros Hr. by rewrite (Hnorig Hr).
    + intros rig Hr Hs. by rewrite (Hnosub rig Hr Hs).
Qed.

(** C9: [erasePose] removes the entry of the given pose id, and nothing
    else, when there is one; otherwise it throws [std::out_of_range] and
    the scene is the one before the call. *)
Theorem erasePose_spec (s : SfMData) (poseId : IndexT) :
  (is_Some (_poses s !! poseId) →
     ∃ s', erasePose poseId s = (s', Ok tt)
       ∧ _poses s' = delete poseId (_poses s)
       ∧ _poses s' !! poseId = None
       ∧ (∀ j, j ≠ poseId → _poses s' !! j = _poses s !! j)
       ∧ views s' = views s ∧ intrinsics s' = intrinsics s
       ∧ structure s' = structure s ∧ control_points s' = control_points s
       ∧ _featuresFolders s' = _featuresFolders s
       ∧ _matchesFolders s' = _matchesFolders s
       ∧ _rigs s' = _rigs s) ∧
  (_poses s !! poseId = None →
     erasePose poseId s =
       (s, Throw (std_out_of_range ("Can't erase unfind pose " +:+ pretty poseId)))).
Proof.
  unfold erasePose. split.
  - intros [p Hp]. rewrite Hp. eexists. split; [done|]. simpl.
    split; [done|]. split; [apply lookup_delete_eq|].
    split; [|done]. intros j Hj. by apply lookup_delete_ne.
  - by intros ->.
Qed.

End SceneProperties.

Section EngineProperties.
Context `{Geometry} `{Externals}.

Implicit Types e : ReconstructionEngine_sequentialSfM.

Lemma newEngine_localBA_ready sfmData dir : localBA_ready (newEngine sfmData dir).
Proof. unfold localBA_ready. simpl. discriminate. Qed.

Lemma setLocalBundleAdjustmentGraphDistance_flag e distance e' :
  setLocalBundleAdjustmentGraphDistance distance e = Ok e' →
  _uselocalBundleAdjustment e' = _uselocalBundleAdjustment e
  ∧ (localBA_ready e → localBA_ready e').
Proof.
  unfold setLocalBundleAdjustmentGraphDistance, localBA_ready.
  destruct (_uselocalBundleAdjustment e) eqn:Hf.
  - destruct (_localBA_data e) as [d|]; [|discriminate].
    intros [= <-]. simpl. split; [done | eauto].
  - intros [= <-]. rewrite Hf. done.
Qed.

Lemma runCall_flag (c : ConfigCall) fs e :
  localBA_ready e →
  ∃ fs' e', runCall c (fs, e) = Ok (fs', e')
    ∧ localBA_ready e'
    ∧ _uselocalBundleAdjustment e' =
        match c with
        | CallSetUseLocalBundleAdjustmentStrategy v => v
        | _ => _uselocalBundleAdjustment e
        end.
Proof.
  intros Hr. destruct c; simpl;
    try (eexists _, _; split; [reflexivity|]; split; [exact Hr | reflexivity]).
  - unfold setLocalBundleAdjustmentGraphDistance.
    destruct (_uselocalBundleAdjustment e) eqn:Hf; simpl.
    + destruct (Hr Hf) as [ld Hld]. rewrite Hld. simpl.
      eexists _, _. split; [reflexivity|]. split; [|done].
      intros _. simpl. eauto.
    + eexists _, _. split; [reflexivity|]. split; [exact Hr | done].
  - destruct v; simpl.
    + eexists _, _. split; [reflexivity|]. split; [|done].
      intros _. simpl. eauto.
    + eexists _, _. split; [reflexivity|]. split; [|done].
      intros Hf. simpl in Hf. discriminate.
Qed.

Lemma runCalls_flag (cs : list ConfigCall) fs e :
  localBA_ready e →
  ∃ fs' e', runCalls cs (fs, e) = Ok (fs', e')
    ∧ localBA_ready e'
    ∧ _uselocalBundleAdjustment e' =
        default (_uselocalBundleAdjustment e) (lastStrategyCall cs).
Proof.
  revert fs e. induction cs as [|c cs IH]; intros fs e Hr.
  - exists fs, e. done.
  - destruct (runCall_flag c fs e Hr) as (fs1 & e1 & Hc & Hr1 & Hf1).
    destruct (IH fs1 e1 Hr1) as (fs2 & e2 & Hcs & Hr2 & Hf2).
    exists fs2, e2. split; [|split; [exact Hr2|]].
    + simpl. rewrite Hc. exact Hcs.
    + rewrite Hf2, Hf1.
      destruct c; simpl; try reflexivity.
Qed.

(** C10: [setLocalBundleAdjustmentGraphDistance] depends on the calls made
    before it. While the flag [_uselocalBundleAdjustment] is false the call
    returns the engine it was given, whatever the distance; right after
    [setUseLocalBundleAdjustmentStrategy(true)] it records the distance; it
    changes the engine only under the flag; and after any configuration
    calls on a freshly constructed engine whose last strategy-selection
    call, if any, did not pass [true], it is a no-op. *)
Theorem setLocalBundleAdjustmentGraphDistance_order e (distance : N) :
  (_uselocalBundleAdjustment e = false →
     setLocalBundleAdjustmentGraphDistance distance e = Ok e) ∧
  (∀ fs, ∃ e',
     setLocalBundleAdjustmentGraphDistance distance
       (setUseLocalBundleAdjustmentStrategy true (fs, e)).2 = Ok e'
     ∧ getGraphDistanceLimit <$> _localBA_data e' = Some distance) ∧
  (∀ e', setLocalBundleAdjustmentGraphDistance distance e = Ok e' →
     e' ≠ e → _uselocalBundleAdjustment e = true) ∧
  (∀ (sfmData : SfMData) dir fs (cs : list ConfigCall) fs' e',
     runCalls cs (fs, newEngine sfmData dir) = Ok (fs', e') →
     lastStrategyCall cs ≠ Some true →
     setLocalBundleAdjustmentGraphDistance distance e' = Ok e').
Proof.
  split; [|split; [|split]].
  - unfold setLocalBundleAdjustmentGraphDistance. by intros ->.
  - intros fs. eexists. split; reflexivity.
  - intros e' He Hne.
    destruct (_uselocalBundleAdjustment e) eqn:Hf; [done|].
    unfold setLocalBundleAdjustmentGraphDistance in He. rewrite Hf in He.
    congruence.
  - intros sfmData dir fs cs fs' e' Hrun Hlast.
    destruct (runCalls_flag cs fs (newEngine sfmData dir)
                (newEngine_localBA_ready sfmData dir)) as (fs1 & e1 & Hrun1 & _ & Hf).
    rewrite Hrun in Hrun1. injection Hrun1 as <- <-.
    unfold setLocalBundleAdjustmentGraphDistance. rewrite Hf. simpl.
    destruct (lastStrategyCall cs) as [[]|]; done.
Qed.




End EngineProperties.

Section TriangulationProperties.
Context `{Geometry} `{Externals} `{!Estimators}.

Implicit Types e : ReconstructionEngine_sequentialSfM.

Lemma sameCameras_refl (s : SfMData) : sameCameras s s.
Proof. done. Qed.

Lemma sameCameras_set_structure f (s1 s2 : SfMData) :
  sameCameras s1 s2 → sameCameras (set_structure f s1) s2.
Proof. done. Qed.

Lemma viewPose_sameCameras (s1 s2 : SfMData) viewId :
  sameCameras s1 s2 → viewPose s1 viewId = viewPose s2 viewId.
Proof.
  intros (Hv & _ & Hp & Hr). unfold viewPose. rewrite Hv.
  destruct (views s2 !! viewId) as [[v|]|]; [|done..].
  unfold getPose, getRigPose, getRigSubPose. by rewrite Hp, Hr.
Qed.

Lemma existsb_pointwise {A} (f g : A → bool) (l : list A) :
  (∀ a, f a = g a) → existsb f l = existsb g l.
Proof. intros Hfg. induction l as [|a l IH]; simpl; [done|]. by rewrite Hfg, IH. Qed.

Lemma checkChieralities_sameCameras (s1 s2 : SfMData) pt3D viewsId :
  sameCameras s1 s2 →
  checkChieralities pt3D viewsId s1 = checkChieralities pt3D viewsId s2.
Proof.
  intros Hs. unfold checkChieralities.
  induction (elements viewsId) as [|viewId l IH]; [done|]. simpl.
  by rewrite IH, (viewPose_sameCameras s1 s2 viewId Hs).
Qed.

Lemma checkAngles_sameCameras (s1 s2 : SfMData) pt3D viewsId kMinAngle :
  sameCameras s1 s2 →
  checkAngles pt3D viewsId s1 kMinAngle = checkAngles pt3D viewsId s2 kMinAngle.
Proof.
  intros Hs. unfold checkAngles.
  apply existsb_pointwise. intros a. apply existsb_pointwise. intros b.
  by rewrite (viewPose_sameCameras s1 s2 a Hs), (viewPose_sameCameras s1 s2 b Hs).
Qed.

Lemma checkChieralities_true (scene : SfMData) pt3D (viewsId : gset IndexT) :
  checkChieralities pt3D viewsId scene = true ↔
  ∀ viewId, viewId ∈ viewsId →
    ∃ p, viewPose scene viewId = Some p
       ∧ PrimFloat.ltb 0 (Pose3_depth p pt3D) = true.
Proof.
  unfold checkChieralities. rewrite forallb_forall. split.
  - intros Hall viewId Hin.
    specialize (Hall viewId). rewrite <- list_elem_of_In, elem_of_elements in Hall.
    specialize (Hall Hin).
    destruct (viewPose scene viewId) as [p|] eqn:Hp; [eauto | done].
  - intros Hall viewId Hin. rewrite <- list_elem_of_In, elem_of_elements in Hin.
    destruct (Hall viewId Hin) as (p & -> & Hd). done.
Qed.

Lemma checkAngles_true (scene : SfMData) pt3D (viewsId : gset IndexT) kMinAngle :
  checkAngles pt3D viewsId scene kMinAngle = true ↔
  ∃ viewIdA viewIdB pA pB,
    viewIdA ∈ viewsId ∧ viewIdB ∈ viewsId ∧ (viewIdA < viewIdB)%N
    ∧ viewPose scene viewIdA = Some pA ∧ viewPose scene viewIdB = Some pB
    ∧ PrimFloat.leb kMinAngle (AngleBetweenRays pA pB pt3D) = true.
Proof.
  unfold checkAngles. rewrite existsb_exists. split.
  - intros (a & Ha & Hex). rewrite existsb_exists in Hex.
    destruct Hex as (b & Hb & Hab).
    rewrite <- list_elem_of_In, elem_of_elements in Ha, Hb.
    apply andb_true_iff in Hab as [Hlt Hang]. apply N.ltb_lt in Hlt.
    destruct (viewPose scene a) as [pA|] eqn:HpA; [|done].
    destruct (viewPose scene b) as [pB|] eqn:HpB; [|done].
    exists a, b, pA, pB. repeat (split; [done|]). done.
  - intros (a & b & pA & pB & Ha & Hb & Hlt & HpA & HpB & Hang).
    exists a. rewrite <- list_elem_of_In, elem_of_elements. split; [done|].
    rewrite existsb_exists. exists b.
    rewrite <- list_elem_of_In, elem_of_elements. split; [done|].
    rewrite HpA, HpB, Hang. apply andb_true_iff. split; [|done].
    by apply N.ltb_lt.
Qed.

Lemma gates_passesGates (scene : SfMData) kMinAngle pt3D contributing :
  checkChieralities pt3D contributing scene
    && checkAngles pt3D contributing scene kMinAngle = true ↔
  passesGates scene kMinAngle pt3D contributing.
Proof.
  rewrite andb_true_iff, checkChieralities_true, checkAngles_true. done.
Qed.

Lemma dom_trackLandmark e trackId pt3D (contributing : gset IndexT) :
  dom (observations (trackLandmark e trackId pt3D contributing)) = contributing.
Proof.
  apply set_eq. intros viewId. rewrite elem_of_dom. simpl. split.
  - intros [obs Hobs]. apply lookup_set_to_map in Hobs as (v & Hv & Heq).
    + by injection Heq as -> _.
    + intros ?? _ _ Hfst. exact Hfst.
  - intros Hin. exists (trackObservation e trackId viewId).
    apply lookup_set_to_map; [intros ?? _ _ Hfst; exact Hfst|].
    by exists viewId.
Qed.

Lemma triangulateTrack_sameCameras e trackId obsViews (scene : SfMData) :
  sameCameras (triangulateTrack e trackId obsViews scene) scene.
Proof.
  unfold triangulateTrack.
  destruct (multiViewTriangulation scene trackId obsViews) as [[pt3D inliers]|]; [|done].
  by destruct (_ && _).
Qed.

Lemma triangulateTrack_rejected e trackId obsViews (scene : SfMData) pt3D inliers :
  multiViewTriangulation scene trackId obsViews = Some (pt3D, inliers) →
  ¬ passesGates scene (_minAngleForTriangulation e) pt3D (inliers ∩ obsViews) →
  triangulateTrack e trackId obsViews scene = scene.
Proof.
  intros Hm Hg. unfold triangulateTrack. rewrite Hm.
  rewrite <- gates_passesGates in Hg. by destruct (_ && _).
Qed.

Lemma triangulateTrack_structure e trackId obsViews (scene : SfMData) id lm :
  structure (triangulateTrack e trackId obsViews scene) !! id = Some lm →
  structure scene !! id = Some lm
  ∨ (id = trackId ∧
     passesGates scene (_minAngleForTriangulation e) (X lm) (dom (observations lm))).
Proof.
  unfold triangulateTrack.
  destruct (multiViewTriangulation scene trackId obsViews) as [[pt3D inliers]|];
    [|by left].
  destruct (_ && _) eqn:Hg; [|by left].
  simpl. destruct (decide (id = trackId)) as [->|Hne].
  - rewrite lookup_insert_eq. intros [= <-]. right. split; [done|].
    rewrite dom_trackLandmark. by apply gates_passesGates.
  - rewrite lookup_insert_ne by done. by left.
Qed.

Lemma passesGates_sameCameras (s1 s2 : SfMData) kMinAngle pt3D contributing :
  sameCameras s1 s2 →
  passesGates s1 kMinAngle pt3D contributing →
  passesGates s2 kMinAngle pt3D contributing.
Proof.
  intros Hs. rewrite <- !gates_passesGates.
  by rewrite (checkChieralities_sameCameras s1 s2), (checkAngles_sameCameras s1 s2).
Qed.

Lemma triangulate_invariant e (scene : SfMData) (cands : gmap IndexT (gset IndexT)) :
  sameCameras (map_fold (triangulateTrack e) scene cands) scene ∧
  ∀ trackId lm,
    structure (map_fold (triangulateTrack e) scene cands) !! trackId = Some lm →
    structure scene !! trackId = Some lm
    ∨ passesGates scene (_minAngleForTriangulation e) (X lm) (dom (observations lm)).
Proof.
  apply (map_fold_weak_ind
    (λ (r : SfMData) (_ : gmap IndexT (gset IndexT)),
       sameCameras r scene ∧
       ∀ trackId lm,
         structure r !! trackId = Some lm →
         structure scene !! trackId = Some lm
         ∨ passesGates scene (_minAngleForTriangulation e) (X lm)
             (dom (observations lm)))).
  - split; [done | by left].
  - intros i obsViews m r _ [Hsame IH]. split.
    + destruct (triangulateTrack_sameCameras e i obsViews r) as (? & ? & ? & ?).
      destruct Hsame as (? & ? & ? & ?).
      repeat split; congruence.
    + intros trackId lm Hlm.
      apply triangulateTrack_structure in Hlm as [Hold | [_ Hg]].
      * by apply IH.
      * right. by eapply passesGates_sameCameras.
Qed.

(** C3: the triangulation adds a point only through both gates. A landmark
    of the scene after [triangulate] either was in the scene before or has
    positive depth in every view that contributes an observation to it and
    an angle of at least [_minAngleForTriangulation] for one pair of those
    views; a candidate whose point fails a gate leaves the scene as it is;
    and the minimum angle of a freshly constructed engine is 3 degrees. *)
Theorem triangulate_gates e (scene sfmData : SfMData) (dir : string)
    (previousReconstructedViews newReconstructedViews : gset IndexT) :
  (∀ trackId lm,
     structure (triangulate e scene previousReconstructedViews newReconstructedViews)
       !! trackId = Some lm →
     structure scene !! trackId = Some lm
     ∨ passesGates scene (_minAngleForTriangulation e) (X lm) (dom (observations lm))) ∧
  (∀ trackId obsViews sc pt3D inliers,
     multiViewTriangulation sc trackId obsViews = Some (pt3D, inliers) →
     ¬ passesGates sc (_minAngleForTriangulation e) pt3D (inliers ∩ obsViews) →
     triangulateTrack e trackId obsViews sc = sc) ∧
  _minAngleForTriangulation (newEngine sfmData dir) = 3%float.
Proof.
  split; [|split; [|reflexivity]].
  2: { intros. by eapply triangulateTrack_rejected. }
  unfold triangulate. apply triangulate_invariant.
Qed.

End TriangulationProperties.

Section OutlierProperties.
Context `{Geometry} `{Externals} `{!Estimators}.

Implicit Types e : ReconstructionEngine_sequentialSfM.

Lemma observationResidual_sameCameras (s1 s2 : SfMData) pt3D viewId obs :
  sameCameras s1 s2 →
  observationResidual s1 pt3D viewId obs = observationResidual s2 pt3D viewId obs.
Proof.
  intros (Hv & Hi & Hp & Hr). unfold observationResidual. rewrite Hv.
  destruct (views s2 !! viewId) as [[v|]|]; [|done..].
  unfold getPose, getRigPose, getRigSubPose, GetIntrinsicPtr.
  by rewrite Hp, Hr, Hi.
Qed.

Lemma pruneObservations_sameCameras (s1 s2 : SfMData) precision lm :
  sameCameras s1 s2 →
  pruneObservations s1 precision lm = pruneObservations s2 precision lm.
Proof.
  intros Hs. unfold pruneObservations. f_equal.
  apply map_filter_ext. intros viewId obs _. simpl.
  unfold withinPrecision.
  by rewrite (observationResidual_sameCameras s1 s2 _ _ _ Hs).
Qed.

Lemma pruneObservations_idemp (scene : SfMData) precision lm :
  pruneObservations scene precision (pruneObservations scene precision lm)
  = pruneObservations scene precision lm.
Proof.
  unfold pruneObservations. simpl. f_equal.
  apply map_filter_id. intros viewId obs Hobs.
  by apply map_lookup_filter_Some in Hobs as [_ Hp].
Qed.

(** A scene whose landmarks are all pruned and all kept is a fixed point of
    the filter. *)
Lemma removeOutliers_fixed precision e :
  (∀ i lm, structure (_sfm_data e) !! i = Some lm →
     pruneObservations (_sfm_data e) precision lm = lm
     ∧ keepsLandmark e (_sfm_data e) lm) →
  removeOutliers precision e = (e, 0%N).
Proof.
  intros Hfix. unfold removeOutliers.
  assert (Hpruned :
    pruneObservations (_sfm_data e) precision <$> structure (_sfm_data e)
    = structure (_sfm_data e)).
  { apply map_eq. intros i. rewrite lookup_fmap.
    destruct (structure (_sfm_data e) !! i) as [lm|] eqn:Hlm; simpl; [|done].
    f_equal. by apply (Hfix i). }
  rewrite Hpruned.
  assert (Hkept :
    filter (λ kv : IndexT * Landmark, keepsLandmark e (_sfm_data e) kv.2)
           (structure (_sfm_data e))
    = structure (_sfm_data e)).
  { apply map_filter_id. intros i lm Hlm. simpl. by apply (Hfix i). }
  rewrite Hkept, !Nat.sub_diag. simpl.
  f_equal. destruct e as [s ? ? ? ? ? ? ? ? ? ? ? ? ? ?]. by destruct s.
Qed.

(** C6: the outlier filter is idempotent. Run on the engine a first run
    with the same precision returns, it removes nothing: it returns 0 and
    the engine, scene included, is the one it was given. *)
Theorem removeOutliers_idempotent (precision : float) e :
  removeOutliers precision (removeOutliers precision e).1
  = ((removeOutliers precision e).1, 0%N).
Proof.
  apply removeOutliers_fixed. intros i lm. simpl.
  assert (Hsame : sameCameras
            (set_structure
               (λ _, filter (λ kv : IndexT * Landmark, keepsLandmark e (_sfm_data e) kv.2)
                       (pruneObservations (_sfm_data e) precision <$> structure (_sfm_data e)))
               (_sfm_data e))
            (_sfm_data e)) by done.
  intros Hlm. apply map_lookup_filter_Some in Hlm as [Hlm Hkeep]. simpl in Hkeep.
  apply lookup_fmap_Some in Hlm as (lm0 & <- & Hlm0).
  split.
  - rewrite (pruneObservations_sameCameras _ _ _ _ Hsame).
    apply pruneObservations_idemp.
  - destruct Hkeep as [Hn Ha]. split; [exact Hn|].
    simpl. rewrite (checkAngles_sameCameras _ _ _ _ _ Hsame). exact Ha.
Qed.

End OutlierProperties.

Section LoopProperties.
Context `{Geometry} `{Externals} `{!Estimators}.
Local Open Scope nat_scope.

Implicit Types e : ReconstructionEngine_sequentialSfM.

Lemma resectedViews_resected e bestViewIds viewId :
  viewId ∈ resectedViews e bestViewIds ↔
  viewId ∈ bestViewIds ∧ ∃ rd, computeResection e viewId = inl rd.
Proof.
  unfold resectedViews. rewrite list_elem_of_filter. unfold isResected.
  destruct (computeResection e viewId) as [rd|f]; split.
  - intros [_ Hin]. eauto.
  - intros [Hin _]. done.
  - intros [? _]. done.
  - intros [_ [rd ?]]. done.
Qed.

Lemma findNextBestViews_remaining e (remaining : gset IndexT) viewId :
  viewId ∈ findNextBestViews e remaining → viewId ∈ remaining.
Proof.
  unfold findNextBestViews, findConnectedViews.
  rewrite list_elem_of_filter. intros [_ Hin].
  rewrite merge_sort_Permutation in Hin.
  apply list_elem_of_filter in Hin as [_ Hin].
  by apply elem_of_elements in Hin.
Qed.

(** C5: a resection is attempted on at least [_minPointsPerPose]
    correspondences, 30 on a freshly constructed engine, and a view whose
    resection fails, whatever the failure, is still among the remaining
    views after the pass, and is not counted as added. *)
Theorem computeResection_deferred e (sfmData : SfMData) (dir : string)
    (precision : float) (bestViewIds : list IndexT)
    (viewIds reconstructed : gset IndexT) :
  _minPointsPerPose (newEngine sfmData dir) = 30%Z ∧
  (∀ viewIndex,
     computeResection e viewIndex ≠ inr InsufficientCorrespondences →
     (_minPointsPerPose e ≤ Z.of_nat (size (resectionTracks e viewIndex)))%Z) ∧
  (∀ viewIndex,
     (Z.of_nat (size (resectionTracks e viewIndex)) < _minPointsPerPose e)%Z →
     computeResection e viewIndex = inr InsufficientCorrespondences) ∧
  (∀ viewIndex failure,
     viewIndex ∈ viewIds →
     computeResection e viewIndex = inr failure →
     viewIndex ∈ (updateReconstruction precision e bestViewIds viewIds reconstructed).1.2
     ∧ viewIndex ∉ (updateReconstruction precision e bestViewIds viewIds reconstructed).2).
Proof.
  split; [reflexivity|]. split; [|split].
  - intros viewIndex Hne. unfold computeResection in Hne.
    destruct (Z.ltb_spec (Z.of_nat (size (resectionTracks e viewIndex)))
                (_minPointsPerPose e)); [done | lia].
  - intros viewIndex Hlt. unfold computeResection.
    destruct (Z.ltb_spec (Z.of_nat (size (resectionTracks e viewIndex)))
                (_minPointsPerPose e)); [done | lia].
  - intros viewIndex failure Hin Hfail. simpl.
    assert (Hnot : viewIndex ∉ resectedViews e bestViewIds).
    { rewrite resectedViews_resected. intros [_ [rd Hrd]]. congruence. }
    rewrite elem_of_difference, elem_of_list_to_set. done.
Qed.

Lemma size_non_empty (S : gset IndexT) : S ≠ ∅ → 0 < size S.
Proof.
  intros Hne. assert (size S ≠ 0); [|lia].
  apply size_non_empty_iff. intros Heq. apply Hne. by apply leibniz_equiv.
Qed.

End LoopProperties.

Section InitialPairProperties.
Context `{Geometry} `{Externals} `{!Estimators}.

Implicit Types e : ReconstructionEngine_sequentialSfM.

Lemma triangulate_sameCameras e (scene : SfMData) (prev new : gset IndexT) :
  sameCameras (triangulate e scene prev new) scene.
Proof. unfold triangulate. apply triangulate_invariant. Qed.








End InitialPairProperties.

Section LoopProgressProperties.
Context `{Geometry} `{Externals} `{!Estimators}.
Local Open Scope nat_scope.

Implicit Types e : ReconstructionEngine_sequentialSfM.

Lemma elem_of_reconstructedViews (scene : SfMData) (viewId : IndexT) :
  viewId ∈ reconstructedViews scene ↔
  ∃ v, views scene !! viewId = Some (Some v)
     ∧ is_Some (_poses scene !! getPoseId v).
Proof.
  unfold reconstructedViews. rewrite elem_of_dom. split.
  - intros [ptr Hptr]. apply map_lookup_filter_Some in Hptr as [Hl Hp].
    simpl in Hp. destruct ptr as [v|]; [|discriminate].
    exists v. split; [exact Hl|]. by apply map_has_true.
  - intros (v & Hl & Hp). exists (Some v).
    apply map_lookup_filter_Some. split; [exact Hl|].
    simpl. by apply map_has_true.
Qed.

Lemma keepsPoses_refl (s : SfMData) : keepsPoses s s.
Proof. by split. Qed.

Lemma keepsPoses_trans (s1 s2 s3 : SfMData) :
  keepsPoses s1 s2 → keepsPoses s2 s3 → keepsPoses s1 s3.
Proof.
  intros [Hv1 Hp1] [Hv2 Hp2]. split; [congruence|].
  intros k Hk. by apply Hp2, Hp1.
Qed.

Lemma reconstructedViews_mono (s s' : SfMData) :
  keepsPoses s s' → reconstructedViews s ⊆ reconstructedViews s'.
Proof.
  intros [Hv Hp] viewId. rewrite !elem_of_reconstructedViews.
  intros (v & Hl & Hpose). exists v. rewrite Hv. split; [exact Hl|].
  by apply elem_of_dom, Hp, elem_of_dom.
Qed.

Lemma reconstructedViews_same (s s' : SfMData) :
  views s' = views s → dom (_poses s') = dom (_poses s) →
  reconstructedViews s' = reconstructedViews s.
Proof.
  intros Hv Hp. apply set_eq. intros viewId. split.
  - apply reconstructedViews_mono. split; [done|]. by rewrite Hp.
  - apply reconstructedViews_mono. split; [done|]. by rewrite Hp.
Qed.

Lemma setPose_keepsPoses (view : View) (p : Pose3) (s : SfMData) :
  CollaboratorContracts → keepsPoses s (setPose view p s).
Proof.
  intros HC. unfold setPose. destruct (isPartOfRig view).
  - apply (setRigViewPose_keeps_poses HC).
  - split; [reflexivity|]. simpl. rewrite dom_insert_L. apply union_subseteq_r.
Qed.

Lemma updateScene_keepsPoses (viewIndex : IndexT) (rd : ResectionData) e :
  CollaboratorContracts →
  keepsPoses (_sfm_data e) (_sfm_data (updateScene viewIndex rd e)).
Proof.
  intros HC. unfold updateScene.
  destruct (views (_sfm_data e) !! viewIndex) as [[v|]|];
    [|apply keepsPoses_refl..].
  simpl.
  destruct (setPose_keepsPoses v (resection_pose rd) (_sfm_data e) HC) as [Hv Hp].
  destruct (isNewIntrinsic rd); split; simpl; assumption.
Qed.

Lemma mergeResections_keepsPoses e (bestViewIds : list IndexT) :
  CollaboratorContracts →
  keepsPoses (_sfm_data e) (_sfm_data (mergeResections e bestViewIds)).
Proof.
  intros HC. unfold mergeResections.
  assert (Hgen : ∀ l acc,
    keepsPoses (_sfm_data e) (_sfm_data acc) →
    keepsPoses (_sfm_data e)
      (_sfm_data (foldl (λ acc viewId,
                           match computeResection e viewId with
                           | inl rd => updateScene viewId rd acc
                           | inr _ => acc
                           end) acc l))).
  { induction l as [|viewId l IH]; intros acc Hacc; simpl; [exact Hacc|].
    apply IH. destruct (computeResection e viewId) as [rd|f]; [|exact Hacc].
    eapply keepsPoses_trans; [exact Hacc|]. by apply updateScene_keepsPoses. }
  apply Hgen, keepsPoses_refl.
Qed.

Lemma mergeResections_none e (bestViewIds : list IndexT) :
  resectedViews e bestViewIds = [] → mergeResections e bestViewIds = e.
Proof.
  unfold resectedViews, mergeResections. intros Hnone.
  assert (Hgen : ∀ acc,
    foldl (λ acc viewId,
             match computeResection e viewId with
             | inl rd => updateScene viewId rd acc
             | inr _ => acc
             end) acc bestViewIds = acc); [|apply Hgen].
  induction bestViewIds as [|viewId l IH]; intros acc; simpl; [done|].
  rewrite filter_cons in Hnone.
  destruct (decide (isResected e viewId = true)) as [|Hno]; [discriminate|].
  unfold isResected in Hno.
  destruct (computeResection e viewId) as [rd|f]; [done|]. by apply IH.
Qed.

(** The scene after the triangulation, the bundle adjustment and the outlier
    removal of a pass has the views and the pose ids it had before them. *)
Lemma refinement_same_poses (precision : float) e (prev newViews : gset IndexT) :
  CollaboratorContracts →
  let e2 := set_sfm_data (λ s, triangulate e s prev newViews) e in
  let e3 := match iterationBundleAdjustment e2 with
            | LocalBA => (localBundleAdjustment newViews e2).1
            | GlobalBA => (BundleAdjustment true e2).1
            end in
  let e4 := (removeOutliers precision e3).1 in
  views (_sfm_data e4) = views (_sfm_data e)
  ∧ dom (_poses (_sfm_data e4)) = dom (_poses (_sfm_data e)).
Proof.
  intros HC e2 e3 e4.
  assert (H2 : views (_sfm_data e2) = views (_sfm_data e)
               ∧ dom (_poses (_sfm_data e2)) = dom (_poses (_sfm_data e))).
  { destruct (triangulate_sameCameras e (_sfm_data e) prev newViews)
      as (Hv & _ & Hp & _).
    subst e2. simpl. by rewrite Hv, Hp. }
  assert (H3 : views (_sfm_data e3) = views (_sfm_data e2)
               ∧ dom (_poses (_sfm_data e3)) = dom (_poses (_sfm_data e2))).
  { subst e3. unfold localBundleAdjustment, BundleAdjustment.
    destruct (iterationBundleAdjustment e2).
    - destruct (refine (_sfm_data e2) None true) as [s'|] eqn:Href; [|done].
      simpl. by apply (refine_returns_values HC) in Href.
    - destruct (refine (_sfm_data e2) (Some newViews) true) as [s'|] eqn:Href;
        [|done].
      simpl. by apply (refine_returns_values HC) in Href. }
  assert (H4 : views (_sfm_data e4) = views (_sfm_data e3)
               ∧ _poses (_sfm_data e4) = _poses (_sfm_data e3)).
  { subst e4. done. }
  destruct H2 as [Hv2 Hp2], H3 as [Hv3 Hp3], H4 as [Hv4 Hp4].
  split; [congruence|]. rewrite Hp4. congruence.
Qed.

Lemma updateReconstruction_scene (precision : float) e
    (bestViewIds : list IndexT) (viewIds reconstructed : gset IndexT) :
  CollaboratorContracts →
  views (_sfm_data (updateReconstruction precision e bestViewIds viewIds reconstructed).1.1)
  = views (_sfm_data (mergeResections e bestViewIds))
  ∧ dom (_poses (_sfm_data
           (updateReconstruction precision e bestViewIds viewIds reconstructed).1.1))
    = dom (_poses (_sfm_data (mergeResections e bestViewIds))).
Proof.
  intros HC.
  exact (refinement_same_poses precision (mergeResections e bestViewIds)
           reconstructed (list_to_set (resectedViews e bestViewIds)) HC).
Qed.

Lemma updateReconstruction_keepsPoses (precision : float) e
    (bestViewIds : list IndexT) (viewIds reconstructed : gset IndexT) :
  CollaboratorContracts →
  keepsPoses (_sfm_data e)
    (_sfm_data (updateReconstruction precision e bestViewIds viewIds reconstructed).1.1).
Proof.
  intros HC.
  destruct (updateReconstruction_scene precision e bestViewIds viewIds
              reconstructed HC) as [Hv Hp].
  eapply keepsPoses_trans; [by apply (mergeResections_keepsPoses e bestViewIds)|].
  split; [exact Hv|]. by rewrite Hp.
Qed.

Lemma updateReconstruction_no_resection (precision : float) e
    (bestViewIds : list IndexT) (viewIds reconstructed : gset IndexT) :
  CollaboratorContracts →
  resectedViews e bestViewIds = [] →
  reconstructedViews
    (_sfm_data (updateReconstruction precision e bestViewIds viewIds reconstructed).1.1)
  = reconstructedViews (_sfm_data e).
Proof.
  intros HC Hnone.
  destruct (updateReconstruction_scene precision e bestViewIds viewIds
              reconstructed HC) as [Hv Hp].
  rewrite (mergeResections_none e bestViewIds Hnone) in Hv, Hp.
  by apply reconstructedViews_same.
Qed.

Lemma iteration_Continue precision st st' :
  CollaboratorContracts →
  iteration precision st = Continue st' →
  reconstructedViews (_sfm_data (loop_engine st))
    ⊆ reconstructedViews (_sfm_data (loop_engine st'))
  ∧ ¬ reconstructedViews (_sfm_data (loop_engine st'))
        ⊆ reconstructedViews (_sfm_data (loop_engine st))
  ∧ ∃ newViews : gset IndexT,
      newViews ≠ ∅ ∧ newViews ⊆ remainingViewIds st
      ∧ remainingViewIds st' = remainingViewIds st ∖ newViews.
Proof.
  intros HC. unfold iteration.
  destruct (findNextBestViews (loop_engine st) (remainingViewIds st))
    as [|v best] eqn:Hbest; [done|].
  pose proof (updateReconstruction_keepsPoses precision (loop_engine st) (v :: best)
                (remainingViewIds st)
                (reconstructedViews (_sfm_data (loop_engine st))) HC) as Hkeep.
  pose proof (updateReconstruction_no_resection precision (loop_engine st) (v :: best)
                (remainingViewIds st)
                (reconstructedViews (_sfm_data (loop_engine st))) HC) as Hnone.
  destruct (updateReconstruction precision (loop_engine st) (v :: best)
              (remainingViewIds st)
              (reconstructedViews (_sfm_data (loop_engine st))))
    as [[e' remaining'] newViews] eqn:Hup.
  simpl in Hkeep, Hnone. case_decide as Hsub; [done|]. intros [= <-]. simpl.
  split; [by apply reconstructedViews_mono|]. split; [exact Hsub|].
  unfold updateReconstruction in Hup. injection Hup as _ <- _.
  exists (list_to_set (resectedViews (loop_engine st) (v :: best))).
  split; [|split; [|done]].
  - intros Hempty. apply Hsub. rewrite Hnone; [done|].
    destruct (resectedViews (loop_engine st) (v :: best)) as [|w l]; [done|].
    exfalso. assert (w ∈ (∅ : gset IndexT)); [|set_solver].
    rewrite <- Hempty. apply elem_of_list_to_set. left.
  - intros viewId Hin.
    apply elem_of_list_to_set, resectedViews_resected in Hin as [Hin _].
    apply (findNextBestViews_remaining (loop_engine st)). by rewrite Hbest.
Qed.

Lemma iteration_Stalled precision st st' :
  CollaboratorContracts →
  iteration precision st = Stalled st' →
  remainingViewIds st ≠ ∅
  ∧ reconstructedViews (_sfm_data (loop_engine st'))
    = reconstructedViews (_sfm_data (loop_engine st)).
Proof.
  intros HC. unfold iteration.
  destruct (findNextBestViews (loop_engine st) (remainingViewIds st))
    as [|v best] eqn:Hbest; [done|].
  pose proof (updateReconstruction_keepsPoses precision (loop_engine st) (v :: best)
                (remainingViewIds st)
                (reconstructedViews (_sfm_data (loop_engine st))) HC) as Hkeep.
  destruct (updateReconstruction precision (loop_engine st) (v :: best)
              (remainingViewIds st)
              (reconstructedViews (_sfm_data (loop_engine st))))
    as [[e' remaining'] newViews] eqn:Hup.
  simpl in Hkeep. case_decide as Hsub; [|done]. intros [= <-]. simpl. split.
  - assert (v ∈ remainingViewIds st); [|set_solver].
    apply (findNextBestViews_remaining (loop_engine st)). rewrite Hbest. left.
  - apply set_eq. intros viewId. split; [apply Hsub|].
    by apply reconstructedViews_mono.
Qed.

Lemma incrementalReconstructionLoop_ends precision (k : nat) :
  CollaboratorContracts →
  ∀ st, size (remainingViewIds st) ≤ k →
  ∃ st' n,
    (∀ fuel, k < fuel → incrementalReconstructionLoop fuel precision st = Some (st', n))
    ∧ n ≤ size (remainingViewIds st)
    ∧ reconstructedViews (_sfm_data (loop_engine st))
        ⊆ reconstructedViews (_sfm_data (loop_engine st')).
Proof.
  intros HC. induction k as [|k IH]; intros st Hk.
  - destruct (iteration precision st) as [|st1|st1] eqn:Hit.
    + exists st, 0. split; [|split; [lia | done]].
      intros [|fuel] ?; [lia|]. simpl. by rewrite Hit.
    + apply (iteration_Stalled _ _ _ HC) in Hit as (Hne & _).
      apply size_non_empty in Hne. lia.
    + apply (iteration_Continue _ _ _ HC) in Hit
        as (_ & _ & newViews & Hne & Hsub & _).
      assert (size newViews ≤ size (remainingViewIds st)) by by apply subseteq_size.
      apply size_non_empty in Hne. lia.
  - destruct (iteration precision st) as [|st1|st1] eqn:Hit.
    + exists st, 0. split; [|split; [lia | done]].
      intros [|fuel] ?; [lia|]. simpl. by rewrite Hit.
    + exists st1, 1. pose proof Hit as Hst.
      apply (iteration_Stalled _ _ _ HC) in Hst as (Hne & Hrec).
      apply size_non_empty in Hne. split; [|split; [lia | by rewrite Hrec]].
      intros [|fuel] ?; [lia|]. simpl. by rewrite Hit.
    + pose proof Hit as Hst.
      apply (iteration_Continue _ _ _ HC) in Hst
        as (Hinc1 & _ & newViews & Hne & Hsub & Hrem).
      assert (Hsize : size (remainingViewIds st1) + size newViews
                      = size (remainingViewIds st)).
      { rewrite Hrem, size_difference by done.
        assert (size newViews ≤ size (remainingViewIds st)) by by apply subseteq_size.
        lia. }
      apply size_non_empty in Hne.
      destruct (IH st1) as (st2 & n & Hloop & Hn & Hinc); [lia|].
      exists st2, (S n). split; [|split; [lia|]].
      2: { intros v Hv. by apply Hinc, Hinc1. }
      intros [|fuel] ?; [lia|]. simpl. rewrite Hit, Hloop by lia. done.
Qed.

(** C7: the reconstructed views of the scene, the views whose pose id has
    an entry in the poses, only grow, and the loop ends. The solver is taken
    to return refined values of the poses it was given, and [setPose] on a
    view of a rig to remove no pose. Then a pass of the loop keeps every
    reconstructed view of the scene; a pass after which the loop goes on
    has given a pose to a view that had none, so that the number of
    reconstructed views went up, and a pass that adds no pose ends the
    loop, the reconstructed views being those before the pass; with enough
    fuel the loop returns, after a number of passes that is at most the
    number of remaining views, itself at most the number of views of the
    scene; so [incrementalReconstruction] always returns, after at most as
    many passes as the scene has views, and with every view that was
    reconstructed at the start still reconstructed. *)
Theorem incrementalReconstruction_progress (precision : float) (st : LoopState) :
  CollaboratorContracts →
  (∀ st', iteration precision st = Continue st' ∨ iteration precision st = Stalled st' →
     reconstructedViews (_sfm_data (loop_engine st))
       ⊆ reconstructedViews (_sfm_data (loop_engine st'))
     ∧ size (reconstructedViews (_sfm_data (loop_engine st)))
       ≤ size (reconstructedViews (_sfm_data (loop_engine st')))) ∧
  (∀ st', iteration precision st = Continue st' →
     (∃ viewId v,
        views (_sfm_data (loop_engine st')) !! viewId = Some (Some v)
        ∧ is_Some (_poses (_sfm_data (loop_engine st')) !! getPoseId v)
        ∧ viewId ∉ reconstructedViews (_sfm_data (loop_engine st)))
     ∧ size (reconstructedViews (_sfm_data (loop_engine st)))
       < size (reconstructedViews (_sfm_data (loop_engine st')))) ∧
  (∀ st', iteration precision st = Stalled st' →
     reconstructedViews (_sfm_data (loop_engine st'))
     = reconstructedViews (_sfm_data (loop_engine st))) ∧
  (∃ st' n,
     (∀ fuel, size (remainingViewIds st) < fuel →
        incrementalReconstructionLoop fuel precision st = Some (st', n))
     ∧ reconstructedViews (_sfm_data (loop_engine st))
         ⊆ reconstructedViews (_sfm_data (loop_engine st'))
     ∧ size (reconstructedViews (_sfm_data (loop_engine st)))
       ≤ size (reconstructedViews (_sfm_data (loop_engine st')))
     ∧ n ≤ size (remainingViewIds st)
     ∧ (remainingViewIds st ⊆ GetViewsKeys (_sfm_data (loop_engine st)) →
        n ≤ size (views (_sfm_data (loop_engine st))))) ∧
  (∀ e, ∃ st' n,
     incrementalReconstruction precision e = Some (st', n)
     ∧ reconstructedViews (_sfm_data e)
         ⊆ reconstructedViews (_sfm_data (loop_engine st'))
     ∧ n ≤ size (views (_sfm_data e))).
Proof.
  intros HC. split; [|split; [|split; [|split]]].
  - intros st' [Hit|Hit].
    + apply (iteration_Continue _ _ _ HC) in Hit as (Hinc & _).
      split; [exact Hinc | by apply subseteq_size].
    + apply (iteration_Stalled _ _ _ HC) in Hit as (_ & ->). done.
  - intros st' Hit.
    apply (iteration_Continue _ _ _ HC) in Hit as (Hinc & Hnew & _).
    assert (Hstrict : reconstructedViews (_sfm_data (loop_engine st))
                        ⊂ reconstructedViews (_sfm_data (loop_engine st')))
      by (split; assumption).
    split; [|by apply subset_size].
    destruct (set_choose_L
                (reconstructedViews (_sfm_data (loop_engine st'))
                   ∖ reconstructedViews (_sfm_data (loop_engine st))))
      as [viewId Hin].
    { intros Hempty. apply Hnew. intros x Hx.
      destruct (decide (x ∈ reconstructedViews (_sfm_data (loop_engine st))))
        as [|Hno]; [done|].
      exfalso. assert (x ∈ (∅ : gset IndexT)); [|set_solver].
      rewrite <- Hempty. by apply elem_of_difference. }
    apply elem_of_difference in Hin as [Hin Hno].
    apply elem_of_reconstructedViews in Hin as (v & Hl & Hp).
    by exists viewId, v.
  - intros st' Hit. by apply (iteration_Stalled _ _ _ HC) in Hit as (_ & ->).
  - destruct (incrementalReconstructionLoop_ends precision
                (size (remainingViewIds st)) HC st) as (st' & n & Hloop & Hn & Hinc);
      [done|].
    exists st', n. split; [exact Hloop|]. split; [exact Hinc|].
    split; [by apply subseteq_size|]. split; [exact Hn|].
    intros Hviews. apply subseteq_size in Hviews.
    unfold GetViewsKeys in Hviews. rewrite size_dom in Hviews. lia.
  - intros e. unfold incrementalReconstruction.
    set (remaining := GetViewsKeys (_sfm_data e) ∖ reconstructedViews (_sfm_data e)).
    destruct (incrementalReconstructionLoop_ends precision (size remaining) HC
                (mkLoopState e remaining))
      as (st' & n & Hloop & Hn & Hinc); [done|].
    exists st', n. split; [apply Hloop; lia|]. split; [exact Hinc|].
    simpl in Hn.
    assert (Hsub : remaining ⊆ dom (views (_sfm_data e))).
    { intros v Hv. apply elem_of_difference in Hv as [Hv _]. exact Hv. }
    apply subseteq_size in Hsub. rewrite size_dom in Hsub. lia.
Qed.

End LoopProgressProperties.

(** ** The scene container: how its operations compose *)

Section SceneAccessorProperties.
Context `{Geometry}.

Lemma IsPoseAndIntrinsicDefined_true_inv (s : SfMData) (v : View) :
  IsPoseAndIntrinsicDefined s (Some v) = Ok true →
  getIntrinsicId v ≠ UndefinedIndexT
  ∧ getPoseId v ≠ UndefinedIndexT
  ∧ (isPartOfRig v = true →
     ∃ sp, getRigSubPose s v = Ok sp ∧ status sp ≠ UNINITIALIZED)
  ∧ is_Some (intrinsics s !! getIntrinsicId v)
  ∧ is_Some (_poses s !! getPoseId v).
Proof.
  unfold IsPoseAndIntrinsicDefined. rewrite !and_then_true.
  intros [[[[Hi Hp] Hr] Hmi] Hmp].
  split; [apply neqb_true; congruence|].
  split; [apply neqb_true; congruence|].
  split; [|split; apply map_has_true; congruence].
  intros Hrig. rewrite Hrig in Hr. simpl in Hr.
  destruct (getRigSubPose s v) as [sp|e]; [|discriminate].
  exists sp. split; [done|]. simpl in Hr.
  intros Hu. rewrite bool_decide_eq_true_2 in Hr by done. discriminate.
Qed.

Lemma IsPoseAndIntrinsicDefined_true_intro (s : SfMData) (v : View) :
  getIntrinsicId v ≠ UndefinedIndexT →
  getPoseId v ≠ UndefinedIndexT →
  (isPartOfRig v = true →
     ∃ sp, getRigSubPose s v = Ok sp ∧ status sp ≠ UNINITIALIZED) →
  is_Some (intrinsics s !! getIntrinsicId v) →
  is_Some (_poses s !! getPoseId v) →
  IsPoseAndIntrinsicDefined s (Some v) = Ok true.
Proof.
  intros Hi Hp Hr Hmi Hmp.
  unfold IsPoseAndIntrinsicDefined. rewrite !and_then_true.
  repeat split.
  - f_equal. by apply neqb_true.
  - f_equal. by apply neqb_true.
  - destruct (isPartOfRig v); simpl; [|done].
    destruct (Hr eq_refl) as (sp & -> & Hne). simpl.
    by rewrite bool_decide_eq_false_2.
  - f_equal. by apply map_has_true.
  - f_equal. by apply map_has_true.
Qed.

Lemma getRigSubPose_throws_out_of_range (s : SfMData) (v : View) e :
  isPartOfRig v = true → getRigSubPose s v = Throw e →
  ∃ what, e = std_out_of_range what.
Proof.
  unfold getRigSubPose, map_at, getSubPose. intros ->. simpl.
  destruct (_rigs s !! getRigId v) as [rig|]; simpl.
  - destruct (_subPoses rig !! N.to_nat (getSubPoseId v)); intros [= <-]. eauto.
  - intros [= <-]. eauto.
Qed.

(** X1: a view reported by [IsPoseAndIntrinsicDefined] has a pose for
    [existsPose], and [getPose] returns a pose for it: it does not throw. *)
Theorem getPose_of_defined_view (s : SfMData) (v : View) :
  IsPoseAndIntrinsicDefined s (Some v) = Ok true →
  existsPose s v = true ∧ ∃ p, getPose s v = Ok p.
Proof.
  intros Hdef.
  apply IsPoseAndIntrinsicDefined_true_inv in Hdef as (_ & _ & Hr & _ & [p Hp]).
  split; [apply map_has_true; eauto|].
  unfold getPose, getRigPose, map_at. rewrite Hp.
  destruct (isPartOfRig v) eqn:Hrig; simpl; [|eauto].
  destruct (Hr eq_refl) as (sp & -> & _). simpl. eauto.
Qed.

(** X2: [getPose] returns exactly when the pose id of the view has a pose
    and, for a view of a rig, its rig and its sub-pose exist; when it does
    not return, what it throws is [std::out_of_range], and the assertion of
    [getRigSubPose] never fails under it. *)
Theorem getPose_returns_iff (s : SfMData) (v : View) :
  ((∃ p, getPose s v = Ok p) ↔
   existsPose s v = true
   ∧ (isPartOfRig v = true → ∃ sp, getRigSubPose s v = Ok sp)) ∧
  (∀ e, getPose s v = Throw e → ∃ what, e = std_out_of_range what).
Proof.
  unfold existsPose. rewrite map_has_true.
  unfold getPose, getRigPose, map_at. split; [split|].
  - intros [p Hp].
    destruct (_poses s !! getPoseId v) as [q|]; [|by destruct (isPartOfRig v)].
    split; [eauto|]. intros Hrig. rewrite Hrig in Hp. simpl in Hp.
    destruct (getRigSubPose s v) as [sp|]; [eauto | discriminate].
  - intros [[q Hq] Hr]. rewrite Hq.
    destruct (isPartOfRig v); simpl; [|eauto].
    destruct (Hr eq_refl) as [sp ->]. simpl. eauto.
  - intros e.
    destruct (isPartOfRig v) eqn:Hrig; simpl.
    + destruct (_poses s !! getPoseId v) as [q|]; simpl; [|intros [= <-]; eauto].
      destruct (getRigSubPose s v) as [sp|e'] eqn:Hsp; simpl; [discriminate|].
      intros [= <-]. by eapply getRigSubPose_throws_out_of_range.
    + destruct (_poses s !! getPoseId v) as [q|]; [discriminate|].
      intros [= <-]. eauto.
Qed.

(** X3: [setAbsolutePose] and [getPose]. After [setAbsolutePose(poseId, p)]
    a view with that pose id has a pose, which [getPose] gives back as [p]
    outside a rig and as [subPose * p] for a camera of a rig; the pose of a
    view with another pose id is what it was; and a view that was defined
    stays defined. *)
Theorem setAbsolutePose_getPose (s : SfMData) (poseId : IndexT) (p : Pose3) :
  (∀ v, getPoseId v = poseId →
     existsPose (setAbsolutePose poseId p s) v = true
     ∧ (isPartOfRig v = false → getPose (setAbsolutePose poseId p s) v = Ok p)
     ∧ (∀ sp, isPartOfRig v = true → getRigSubPose s v = Ok sp →
          getPose (setAbsolutePose poseId p s) v = Ok (Pose3_mul (pose sp) p))) ∧
  (∀ v, getPoseId v ≠ poseId →
     getPose (setAbsolutePose poseId p s) v = getPose s v
     ∧ existsPose (setAbsolutePose poseId p s) v = existsPose s v) ∧
  (∀ v, IsPoseAndIntrinsicDefined s (Some v) = Ok true →
     IsPoseAndIntrinsicDefined (setAbsolutePose poseId p s) (Some v) = Ok true).
Proof.
  split; [|split].
  - intros v <-. split; [|split].
    + apply map_has_true. simpl. rewrite lookup_insert_eq. eauto.
    + intros Hrig. unfold getPose, map_at. rewrite Hrig. simpl.
      by rewrite lookup_insert_eq.
    + intros sp Hrig Hsp. unfold getPose, getRigPose, map_at. rewrite Hrig. simpl.
      rewrite lookup_insert_eq. simpl.
      change (getRigSubPose (setAbsolutePose (getPoseId v) p s) v)
        with (getRigSubPose s v).
      by rewrite Hsp.
  - intros v Hne. split.
    + unfold getPose, getRigPose, map_at. simpl. rewrite lookup_insert_ne by done.
      reflexivity.
    + unfold existsPose, map_has. simpl. by rewrite lookup_insert_ne.
  - intros v Hdef.
    apply IsPoseAndIntrinsicDefined_true_inv in Hdef as (Hi & Hp & Hr & Hmi & Hmp).
    apply IsPoseAndIntrinsicDefined_true_intro; try done.
    simpl. destruct (decide (poseId = getPoseId v)) as [->|Hne].
    + rewrite lookup_insert_eq. eauto.
    + by rewrite lookup_insert_ne.
Qed.

Lemma set_poses_id (s : SfMData) (f : gmap IndexT Pose3 → gmap IndexT Pose3) :
  f (_poses s) = _poses s → set_poses f s = s.
Proof. intros Hf. unfold set_poses. rewrite Hf. by destruct s. Qed.

(** X4: [setAbsolutePose] and [erasePose] on one pose id. The last pose set
    is the one that stays, and erasing a pose that was set on an id without
    a pose gives back the scene as it was. *)
Theorem erasePose_setAbsolutePose (s : SfMData) (poseId : IndexT) (p q : Pose3) :
  setAbsolutePose poseId q (setAbsolutePose poseId p s) = setAbsolutePose poseId q s ∧
  (_poses s !! poseId = None →
     erasePose poseId (setAbsolutePose poseId p s) = (s, Ok tt)).
Proof.
  split.
  - unfold setAbsolutePose, set_poses. simpl. by rewrite insert_insert_eq.
  - intros Hnone. unfold erasePose. simpl. rewrite lookup_insert_eq.
    f_equal. unfold set_poses. simpl. rewrite delete_insert_id by done.
    by destruct s.
Qed.

(** X5: [erasePose] does not succeed twice. Whatever the first call did, a
    second call on the same pose id throws [std::out_of_range] and leaves
    the scene of the first call. *)
Theorem erasePose_twice (s : SfMData) (poseId : IndexT) :
  erasePose poseId (erasePose poseId s).1 =
    ((erasePose poseId s).1,
     Throw (std_out_of_range ("Can't erase unfind pose " +:+ pretty poseId))).
Proof.
  destruct (_poses s !! poseId) as [p|] eqn:Hp.
  - assert (Hfirst : erasePose poseId s = (set_poses (delete poseId) s, Ok tt)).
    { unfold erasePose. by rewrite Hp. }
    rewrite Hfirst. simpl. unfold erasePose. simpl. by rewrite lookup_delete_eq.
  - assert (Hfirst : erasePose poseId s =
              (s, Throw (std_out_of_range ("Can't erase unfind pose " +:+ pretty poseId)))).
    { unfold erasePose. by rewrite Hp. }
    rewrite Hfirst. simpl. exact Hfirst.
Qed.

(** X6: after [erasePose(poseId)], whether it erased or threw, no view with
    that pose id is defined, [existsPose] is false for it and [getPose]
    throws [std::out_of_range]; a view with another pose id is answered as
    before. *)
Theorem erasePose_undefines (s : SfMData) (poseId : IndexT) (v : View) :
  (getPoseId v = poseId →
     IsPoseAndIntrinsicDefined (erasePose poseId s).1 (Some v) ≠ Ok true
     ∧ existsPose (erasePose poseId s).1 v = false
     ∧ ∃ what, getPose (erasePose poseId s).1 v = Throw (std_out_of_range what)) ∧
  (getPoseId v ≠ poseId →
     IsPoseAndIntrinsicDefined (erasePose poseId s).1 (Some v)
       = IsPoseAndIntrinsicDefined s (Some v)
     ∧ getPose (erasePose poseId s).1 v = getPose s v).
Proof.
  assert (Hposes : _poses (erasePose poseId s).1 = delete poseId (_poses s)).
  { unfold erasePose. destruct (_poses s !! poseId) eqn:Hp; simpl; [done|].
    symmetry. by apply delete_id. }
  assert (Hrigs : ∀ w, getRigSubPose (erasePose poseId s).1 w = getRigSubPose s w).
  { intros w. unfold erasePose. by destruct (_poses s !! poseId). }
  assert (Hintr : intrinsics (erasePose poseId s).1 = intrinsics s).
  { unfold erasePose. by destruct (_poses s !! poseId). }
  split.
  - intros <-.
    assert (Hnone : _poses (erasePose (getPoseId v) s).1 !! getPoseId v = None).
    { rewrite Hposes. apply lookup_delete_eq. }
    split; [|split].
    + intros Hdef.
      apply IsPoseAndIntrinsicDefined_true_inv in Hdef as (_ & _ & _ & _ & [p Hp]).
      congruence.
    + unfold existsPose, map_has. rewrite Hnone.
      apply bool_decide_eq_false_2. by intros [? ?].
    + exists "map::at". unfold getPose, getRigPose, map_at. rewrite Hnone.
      by destruct (isPartOfRig v).
  - intros Hne. split.
    + unfold IsPoseAndIntrinsicDefined. rewrite Hrigs, Hintr.
      unfold map_has at 2 4. rewrite Hposes, lookup_delete_ne by done. reflexivity.
    + unfold getPose, getRigPose, map_at. rewrite Hrigs, Hposes.
      by rewrite lookup_delete_ne.
Qed.

Lemma GetViewsKeys_loop_foldl (l : list (IndexT * option View)) (acc : gset IndexT) :
  foldl (λ (viewKeys : gset IndexT) (v : IndexT * option View), viewKeys ∪ {[v.1]}) acc l
  = acc ∪ list_to_set (l.*1).
Proof.
  revert acc. induction l as [|v l IH]; intros acc; simpl.
  - by rewrite union_empty_r_L.
  - rewrite IH. by rewrite union_assoc_L.
Qed.

(** X7: the loop of [GetViewsKeys] returns the keys of [views], no more and
    no less: an id is in the set exactly when [views] has an entry for it,
    a null pointer included. *)
Theorem GetViewsKeys_loop_keys (s : SfMData) (viewId : IndexT) :
  GetViewsKeys_loop s = GetViewsKeys s ∧
  (viewId ∈ GetViewsKeys_loop s ↔ is_Some (views s !! viewId)).
Proof.
  assert (Heq : GetViewsKeys_loop s = GetViewsKeys s).
  { unfold GetViewsKeys_loop, GetViewsKeys. rewrite GetViewsKeys_loop_foldl.
    rewrite union_empty_l_L. apply set_eq. intros k.
    rewrite elem_of_list_to_set, elem_of_dom, list_elem_of_fmap. split.
    - intros ([k' view] & -> & Hin). apply elem_of_map_to_list in Hin. eauto.
    - intros [view Hview]. exists (k, view). split; [done|].
      by apply elem_of_map_to_list. }
  split; [exact Heq|]. rewrite Heq. apply elem_of_dom.
Qed.

(** X8: [IsPoseAndIntrinsicDefined] on a view id. For an id that
    [GetViewsKeys] does not return the call throws [std::out_of_range]; it
    does not return false. For an id of the set it answers as the call on
    the stored pointer, so false for a null pointer. *)
Theorem IsPoseAndIntrinsicDefined_id_cases (s : SfMData) (viewId : IndexT) :
  (viewId ∉ GetViewsKeys s →
     IsPoseAndIntrinsicDefined_id s viewId = Throw (std_out_of_range "map::at")) ∧
  (viewId ∈ GetViewsKeys s →
     ∃ view, views s !! viewId = Some view
       ∧ IsPoseAndIntrinsicDefined_id s viewId = IsPoseAndIntrinsicDefined s view
       ∧ (view = None → IsPoseAndIntrinsicDefined_id s viewId = Ok false)).
Proof.
  unfold GetViewsKeys, IsPoseAndIntrinsicDefined_id, map_at.
  rewrite elem_of_dom. split.
  - intros Hnot. destruct (views s !! viewId) as [view|] eqn:Hv; [|done].
    exfalso. apply Hnot. eauto.
  - intros [view Hv]. rewrite Hv. exists view. split; [done|]. split; [done|].
    by intros ->.
Qed.

(** X9: [IsPoseAndIntrinsicDefined] looks at the key of the intrinsic, not
    at the pointer stored under it. Whatever pointer is stored under the
    intrinsic id of a defined view, null included, the view stays defined,
    and [GetIntrinsicPtr] and [GetIntrinsicSharedPtr] return that pointer. *)
Theorem IsPoseAndIntrinsicDefined_any_intrinsic_pointer
    (s : SfMData) (v : View) (ptr : option IntrinsicBase) :
  IsPoseAndIntrinsicDefined s (Some v) = Ok true →
  IsPoseAndIntrinsicDefined
    (set_intrinsics (<[getIntrinsicId v := ptr]>) s) (Some v) = Ok true
  ∧ GetIntrinsicPtr (set_intrinsics (<[getIntrinsicId v := ptr]>) s) (getIntrinsicId v)
    = ptr
  ∧ GetIntrinsicSharedPtr (set_intrinsics (<[getIntrinsicId v := ptr]>) s)
      (getIntrinsicId v)
    = ptr.
Proof.
  intros Hdef.
  apply IsPoseAndIntrinsicDefined_true_inv in Hdef as (Hi & Hp & Hr & Hmi & Hmp).
  split; [|split].
  - apply IsPoseAndIntrinsicDefined_true_intro; try done.
    simpl. rewrite lookup_insert_eq. eauto.
  - unfold GetIntrinsicPtr, map_has. simpl. rewrite lookup_insert_eq.
    rewrite bool_decide_eq_true_2 by eauto. done.
  - unfold GetIntrinsicSharedPtr, map_has. simpl. rewrite lookup_insert_eq.
    rewrite bool_decide_eq_true_2 by eauto. done.
Qed.

(** X10: [resetRigs] resets nothing. Its loop works on copies of the rigs,
    so whatever [Rig::reset] does, the scene after the call is the scene
    before it, and every sub-pose keeps its status and its pose. *)
Theorem resetRigs_no_effect (Rig_reset : Rig → Rig) (s : SfMData) (v : View) :
  resetRigs Rig_reset s = s
  ∧ getRigSubPose (resetRigs Rig_reset s) v = getRigSubPose s v.
Proof.
  assert (Heq : resetRigs Rig_reset s = s).
  { unfold resetRigs. generalize (map_to_list (_rigs s)). intros l.
    induction l as [|entry l IH]; simpl; [done | exact IH]. }
  split; [exact Heq | by rewrite Heq].
Qed.

Lemma runFolderCall_folders (s : SfMData) (cs : list FolderCall) :
  _featuresFolders (foldl runFolderCall s cs)
    = featuresFoldersAfter cs (_featuresFolders s)
  ∧ _matchesFolders (foldl runFolderCall s cs)
    = matchesFoldersAfter cs (_matchesFolders s)
  ∧ views (foldl runFolderCall s cs) = views s
  ∧ intrinsics (foldl runFolderCall s cs) = intrinsics s
  ∧ structure (foldl runFolderCall s cs) = structure s
  ∧ control_points (foldl runFolderCall s cs) = control_points s
  ∧ _poses (foldl runFolderCall s cs) = _poses s
  ∧ _rigs (foldl runFolderCall s cs) = _rigs s.
Proof.
  revert s. induction cs as [|c cs IH]; intros s; simpl; [done|].
  destruct (IH (runFolderCall s c)) as (Hf & Hm & Hv & Hi & Hs & Hc & Hp & Hr).
  rewrite Hf, Hm, Hv, Hi, Hs, Hc, Hp, Hr. by destruct c.
Qed.

(** X11: the folder calls. After any sequence of [addFeaturesFolder],
    [addMatchesFolder], [setFeaturesFolders] and [setMatchesFolders], the
    features folders are those of the last [setFeaturesFolders] (or the
    ones before the sequence) followed by the folders added since, in call
    order; the calls on the matches folders do not change them, and the
    other way round; and nothing else of the scene changes. *)
Theorem folder_calls (s : SfMData) (cs : list FolderCall) :
  _featuresFolders (foldl runFolderCall s cs)
    = featuresFoldersAfter cs (_featuresFolders s)
  ∧ _matchesFolders (foldl runFolderCall s cs)
    = matchesFoldersAfter cs (_matchesFolders s)
  ∧ (∀ folders added,
       _featuresFolders
         (foldl runFolderCall (setFeaturesFolders folders s)
            (CallAddFeaturesFolder <$> added))
       = folders ++ added)
  ∧ views (foldl runFolderCall s cs) = views s
  ∧ intrinsics (foldl runFolderCall s cs) = intrinsics s
  ∧ structure (foldl runFolderCall s cs) = structure s
  ∧ control_points (foldl runFolderCall s cs) = control_points s
  ∧ _poses (foldl runFolderCall s cs) = _poses s
  ∧ _rigs (foldl runFolderCall s cs) = _rigs s.
Proof.
  destruct (runFolderCall_folders s cs) as (Hf & Hm & Hrest).
  split; [exact Hf|]. split; [exact Hm|]. split; [|exact Hrest].
  intros folders added.
  rewrite (proj1 (runFolderCall_folders _ _)). simpl.
  revert folders. induction added as [|a added IH]; intros folders; simpl.
  - by rewrite app_nil_r.
  - rewrite IH. by rewrite <- app_assoc.
Qed.

(** X21: [getRig] and [getRigSubPose] on a view of a rig, where the
    assertion of both holds. [getRig] returns the rig stored under the rig
    id of the view; when there is none, both throw the [std::out_of_range]
    of the lookup; and [getRigSubPose] returns a sub-pose exactly when
    [getRig] returns a rig that has this sub-pose at the sub-pose id of the
    view. *)
Theorem getRig_getRigSubPose (s : SfMData) (v : View) :
  isPartOfRig v = true →
  (∀ rig, getRig s v = Ok rig ↔ _rigs s !! getRigId v = Some rig) ∧
  (_rigs s !! getRigId v = None →
     getRig s v = Throw (std_out_of_range "map::at")
     ∧ getRigSubPose s v = Throw (std_out_of_range "map::at")) ∧
  (∀ sp, getRigSubPose s v = Ok sp ↔
     ∃ rig, getRig s v = Ok rig
       ∧ _subPoses rig !! N.to_nat (getSubPoseId v) = Some sp).
Proof.
  unfold getRig, getRigSubPose, map_at, getSubPose.
  intros ->. simpl. split; [|split].
  - intros rig. destruct (_rigs s !! getRigId v); simpl; split; congruence.
  - by intros ->.
  - intros sp. destruct (_rigs s !! getRigId v) as [rig|]; simpl.
    + destruct (_subPoses rig !! N.to_nat (getSubPoseId v)) as [sp'|] eqn:Hsp; split.
      * intros [= <-]. eauto.
      * intros (rig' & [= <-] & Hsp'). congruence.
      * discriminate.
      * intros (rig' & [= <-] & Hsp'). congruence.
    + split; [discriminate | intros (rig & ? & _); discriminate].
Qed.

(** X22: when [IsPoseAndIntrinsicDefined] throws. The call throws only on a
    view of a rig whose two ids are defined and whose rig or sub-pose is
    missing, whether or not its intrinsic and its pose exist; what it
    throws is the [std::out_of_range] of that lookup. On any other view it
    returns. *)
Theorem IsPoseAndIntrinsicDefined_throws_iff (s : SfMData) (view : option View) e :
  IsPoseAndIntrinsicDefined s view = Throw e ↔
  ∃ v, view = Some v
    ∧ getIntrinsicId v ≠ UndefinedIndexT
    ∧ getPoseId v ≠ UndefinedIndexT
    ∧ isPartOfRig v = true
    ∧ getRigSubPose s v = Throw e
    ∧ ∃ what, e = std_out_of_range what.
Proof.
  destruct view as [v|]; simpl.
  2: { split; [discriminate | intros (? & ? & _); discriminate]. }
  unfold and_then. simpl.
  destruct (getIntrinsicId v =? UndefinedIndexT) eqn:Hi; simpl.
  { apply N.eqb_eq in Hi. split; [discriminate|].
    intros (v' & [= <-] & Hne & _). done. }
  destruct (getPoseId v =? UndefinedIndexT) eqn:Hp; simpl.
  { apply N.eqb_eq in Hp. split; [discriminate|].
    intros (v' & [= <-] & _ & Hne & _). done. }
  apply N.eqb_neq in Hi, Hp.
  destruct (isPartOfRig v) eqn:Hrig; simpl.
  - destruct (getRigSubPose s v) as [sp|e'] eqn:Hsp; simpl.
    + split.
      * destruct (negb (bool_decide (status sp = UNINITIALIZED))); simpl;
          [|discriminate].
        destruct (map_has (intrinsics s) (getIntrinsicId v)); discriminate.
      * intros (v' & [= <-] & _ & _ & _ & ? & _). congruence.
    + split.
      * intros [= <-]. exists v. repeat (split; [done|]).
        by eapply getRigSubPose_throws_out_of_range.
      * intros (v' & [= <-] & _ & _ & _ & He & _). congruence.
  - split.
    + destruct (map_has (intrinsics s) (getIntrinsicId v)); discriminate.
    + intros (v' & [= <-] & _ & _ & ? & _). congruence.
Qed.

(** X23: [setAbsolutePose] on the pose id of a view is what makes it
    defined. A view with defined ids, an intrinsic in the scene and, in a
    rig, an initialized sub-pose, is defined after the call whatever it was
    before. *)
Theorem setAbsolutePose_defines (s : SfMData) (v : View) (p : Pose3) :
  getIntrinsicId v ≠ UndefinedIndexT →
  getPoseId v ≠ UndefinedIndexT →
  is_Some (intrinsics s !! getIntrinsicId v) →
  (isPartOfRig v = true →
     ∃ sp, getRigSubPose s v = Ok sp ∧ status sp ≠ UNINITIALIZED) →
  IsPoseAndIntrinsicDefined (setAbsolutePose (getPoseId v) p s) (Some v) = Ok true.
Proof.
  intros Hi Hp Hmi Hr.
  apply IsPoseAndIntrinsicDefined_true_intro; try done.
  simpl. rewrite lookup_insert_eq. eauto.
Qed.

End SceneAccessorProperties.

(** ** The configuration interface of the engine *)

Section ConfigurationProperties.
Context `{Geometry} `{Externals}.

Implicit Types e : ReconstructionEngine_sequentialSfM.

Lemma runCall_frame (c : ConfigCall) fs e fs' e' :
  runCall c (fs, e) = Ok (fs', e') →
  _sfm_data e' = _sfm_data e
  ∧ _sOutDirectory e' = _sOutDirectory e
  ∧ _minPointsPerPose e' = _minPointsPerPose e
  ∧ _minAngleForTriangulation e' = _minAngleForTriangulation e
  ∧ _map_tracks e' = _map_tracks e.
Proof.
  destruct c; simpl; try (intros [= <- <-]; done).
  - unfold setLocalBundleAdjustmentGraphDistance.
    destruct (_uselocalBundleAdjustment e); simpl.
    + destruct (_localBA_data e); simpl; [|discriminate]. intros [= <- <-]. done.
    + intros [= <- <-]. done.
  - destruct v; simpl; intros [= <- <-]; done.
Qed.

(** X12: no configuration call of the public interface writes the scene,
    the output directory, the putative tracks, the minimum number of points
    per pose or the minimum triangulation angle. After any sequence of such
    calls they are what they were, so an engine configured from a fresh one
    still resects on at least 30 correspondences and triangulates from 3
    degrees. *)
Theorem configuration_frame (cs : list ConfigCall) fs e fs' e' :
  runCalls cs (fs, e) = Ok (fs', e') →
  (_sfm_data e' = _sfm_data e
   ∧ _sOutDirectory e' = _sOutDirectory e
   ∧ _minPointsPerPose e' = _minPointsPerPose e
   ∧ _minAngleForTriangulation e' = _minAngleForTriangulation e
   ∧ _map_tracks e' = _map_tracks e) ∧
  (∀ sfmData dir, e = newEngine sfmData dir →
     _minPointsPerPose e' = 30%Z ∧ _minAngleForTriangulation e' = 3%float).
Proof.
  intros Hrun.
  assert (Hframe :
    _sfm_data e' = _sfm_data e
    ∧ _sOutDirectory e' = _sOutDirectory e
    ∧ _minPointsPerPose e' = _minPointsPerPose e
    ∧ _minAngleForTriangulation e' = _minAngleForTriangulation e
    ∧ _map_tracks e' = _map_tracks e).
  { revert fs e Hrun. induction cs as [|c cs IH]; intros fs e; simpl.
    - intros [= <- <-]. done.
    - destruct (runCall c (fs, e)) as [[fs1 e1]|] eqn:Hc; simpl; [|discriminate].
      intros Hrest. apply IH in Hrest as (? & ? & ? & ? & ?).
      apply runCall_frame in Hc as (? & ? & ? & ? & ?).
      repeat split; congruence. }
  split; [exact Hframe|].
  intros sfmData dir ->. destruct Hframe as (_ & _ & -> & -> & _). done.
Qed.

(** X13: enabling the local strategy starts it afresh. After
    [setUseLocalBundleAdjustmentStrategy(true)] the local bundle adjustment
    data has the initial graph distance and the directory [localBA/] under
    the output directory, whatever was recorded before: a distance set
    earlier is lost by enabling again. Disabling keeps the data and the file
    system as they are, and the distance can no longer be changed. *)
Theorem setUseLocalBundleAdjustmentStrategy_restarts fs e (distance distance' : N) :
  _localBA_data (setUseLocalBundleAdjustmentStrategy true (fs, e)).2
    = Some (mkLocalBundleAdjustmentData initialGraphDistanceLimit
              (folder_append_separator (_sOutDirectory e) +:+ "localBA/")) ∧
  (∀ e1, setLocalBundleAdjustmentGraphDistance distance
           (setUseLocalBundleAdjustmentStrategy true (fs, e)).2 = Ok e1 →
     getGraphDistanceLimit <$>
       _localBA_data (setUseLocalBundleAdjustmentStrategy true (fs, e1)).2
     = Some initialGraphDistanceLimit) ∧
  (setUseLocalBundleAdjustmentStrategy false (fs, e)).1 = fs ∧
  _localBA_data (setUseLocalBundleAdjustmentStrategy false (fs, e)).2 = _localBA_data e ∧
  setLocalBundleAdjustmentGraphDistance distance'
    (setUseLocalBundleAdjustmentStrategy false (fs, e)).2
  = Ok (setUseLocalBundleAdjustmentStrategy false (fs, e)).2.
Proof. repeat split; reflexivity. Qed.

(** X14: the order of two configuration calls matters only when they write
    the same member. Two calls that write different members give the same
    engine and the same file system, and end the same way, in either
    order; the two calls of the local bundle adjustment write the same
    member. *)
Theorem configuration_calls_commute (c1 c2 : ConfigCall)
    (w : FileSystem * ReconstructionEngine_sequentialSfM) :
  writtenMember c1 ≠ writtenMember c2 →
  runCalls [c1; c2] w = runCalls [c2; c1] w.
Proof.
  destruct w as [fs e]. intros Hne.
  destruct c1, c2; simpl in Hne; try done; simpl;
    unfold setLocalBundleAdjustmentGraphDistance; simpl;
    try reflexivity;
    try (destruct (_uselocalBundleAdjustment e); simpl; [|reflexivity];
         destruct (_localBA_data e); reflexivity);
    try (destruct v; reflexivity).
Qed.

End ConfigurationProperties.

(** ** The quality evaluation loop *)

Section QualityEvaluationProperties.
Context `{Geometry}.
Variable Mat3 : Type.
Variable Pose3_center : Pose3 → Vec3.
Variable Pose3_rotation : Pose3 → Mat3.
Local Open Scope nat_scope.

Local Abbreviation evaluationTurn := (evaluationTurn Mat3 Pose3_center Pose3_rotation).
Local Abbreviation evaluationLoop := (evaluationLoop Mat3 Pose3_center Pose3_rotation).
Local Abbreviation fillEvaluationVectors := (fillEvaluationVectors Mat3 Pose3_center Pose3_rotation).
Local Abbreviation pushEvaluation := (pushEvaluation Mat3 Pose3_center Pose3_rotation).
Local Abbreviation alignedAt := (alignedAt Mat3 Pose3_center Pose3_rotation).

Implicit Types acc ev : EvaluationVectors Mat3.

Local Abbreviation sameLengths := (sameLengths Mat3).

Lemma evaluationTurn_Ok (sfmData sfmData_gt : SfMData) acc iter acc' :
  evaluationTurn sfmData sfmData_gt acc iter = Ok acc' →
  (isEvaluated sfmData sfmData_gt iter = false ∧ acc' = acc) ∨
  (isEvaluated sfmData sfmData_gt iter = true ∧
   ∃ view gtView pose_eval pose_gt,
     iter.2 = Some view
     ∧ _poses sfmData !! getPoseId view = Some pose_eval
     ∧ views sfmData_gt !! getViewId view = Some (Some gtView)
     ∧ _poses sfmData_gt !! IndexT_of_int (int_of_IndexT (getPoseId gtView))
       = Some pose_gt
     ∧ acc' = pushEvaluation acc pose_gt pose_eval).
Proof.
  unfold evaluationTurn, isEvaluated.
  destruct iter.2 as [view|]; simpl; [|discriminate].
  destruct (map_has (_poses sfmData) (getPoseId view)) eqn:Hp; simpl;
    [|intros [= <-]; by left].
  destruct (map_has (views sfmData_gt) (getViewId view)) eqn:Hv; simpl;
    [|intros [= <-]; by left].
  unfold map_at.
  destruct (views sfmData_gt !! getViewId view) as [[gtView|]|] eqn:Hgt; simpl;
    [|discriminate..].
  destruct (_poses sfmData_gt !! IndexT_of_int (int_of_IndexT (getPoseId gtView)))
    as [pose_gt|] eqn:Hpgt; simpl; [|discriminate].
  destruct (_poses sfmData !! getPoseId view) as [pose_eval|] eqn:Hpe; simpl;
    [|discriminate].
  intros [= <-]. right. split; [done|].
  exists view, gtView, pose_eval, pose_gt. done.
Qed.

Lemma evaluationTurn_runs (sfmData sfmData_gt : SfMData) acc iter :
  (∃ acc', evaluationTurn sfmData sfmData_gt acc iter = Ok acc') ↔
  turnRuns sfmData sfmData_gt iter.
Proof.
  unfold evaluationTurn, turnRuns.
  destruct iter.2 as [view|]; simpl.
  2: { split; [intros [? ?]; discriminate | intros (? & ? & _); discriminate]. }
  destruct (map_has (_poses sfmData) (getPoseId view)) eqn:Hp; simpl.
  2: { apply not_true_iff_false in Hp. rewrite map_has_true in Hp.
       split; [|eauto]. intros _. exists view. split; [done|].
       intros Hs. by destruct Hp. }
  apply map_has_true in Hp as [pose_eval Hpe].
  destruct (map_has (views sfmData_gt) (getViewId view)) eqn:Hv; simpl.
  2: { apply not_true_iff_false in Hv. rewrite map_has_true in Hv.
       split; [|eauto]. intros _. exists view. split; [done|].
       intros _ gtPtr Hg. destruct Hv. eauto. }
  apply map_has_true in Hv as [gtPtr Hgt].
  unfold map_at. rewrite Hgt, Hpe. simpl.
  destruct gtPtr as [gtView|]; simpl.
  2: { split; [intros [? ?]; discriminate|].
       intros (view' & [= <-] & Hrun).
       destruct (Hrun (ltac:(eauto)) None Hgt) as (? & ? & _). discriminate. }
  destruct (_poses sfmData_gt !! IndexT_of_int (int_of_IndexT (getPoseId gtView)))
    as [pose_gt|] eqn:Hpgt; simpl.
  - split; [|eauto]. intros _. exists view. split; [done|].
    intros _ gtPtr Hg. rewrite Hgt in Hg. injection Hg as <-.
    exists gtView. split; [done|]. eauto.
  - split; [intros [? ?]; discriminate|].
    intros (view' & [= <-] & Hrun).
    destruct (Hrun (ltac:(eauto)) (Some gtView) Hgt) as (gtView' & [= <-] & [? ?]).
    congruence.
Qed.

Lemma evaluationLoop_runs (sfmData sfmData_gt : SfMData) entries acc :
  (∃ ev, evaluationLoop sfmData sfmData_gt entries acc = Ok ev) ↔
  Forall (turnRuns sfmData sfmData_gt) entries.
Proof.
  revert acc. induction entries as [|iter rest IH]; intros acc; simpl.
  - split; [by constructor | eauto].
  - rewrite Forall_cons, <- (evaluationTurn_runs sfmData sfmData_gt acc iter).
    destruct (evaluationTurn sfmData sfmData_gt acc iter) as [acc'|e]; simpl.
    + rewrite IH. split; [eauto | tauto].
    + split; [intros [? ?]; discriminate | intros [[? ?] _]; discriminate].
Qed.

Lemma pushEvaluation_aligned (sfmData sfmData_gt : SfMData) acc
    viewId view gtView pose_eval pose_gt :
  sameLengths acc →
  (∀ i, i < length (vec_C Mat3 acc) → alignedAt sfmData sfmData_gt acc i) →
  views sfmData !! viewId = Some (Some view) →
  _poses sfmData !! getPoseId view = Some pose_eval →
  views sfmData_gt !! getViewId view = Some (Some gtView) →
  _poses sfmData_gt !! IndexT_of_int (int_of_IndexT (getPoseId gtView)) = Some pose_gt →
  sameLengths (pushEvaluation acc pose_gt pose_eval)
  ∧ ∀ i, i < length (vec_C Mat3 (pushEvaluation acc pose_gt pose_eval)) →
      alignedAt sfmData sfmData_gt (pushEvaluation acc pose_gt pose_eval) i.
Proof.
  intros (Hl1 & Hl2 & Hl3) Hal Hview Hpe Hgt Hpgt. split.
  - unfold sameLengths. simpl. rewrite !length_app. simpl. lia.
  - simpl. rewrite length_app. simpl. intros i Hi.
    destruct (decide (i < length (vec_C Mat3 acc))) as [Hlt|Hge].
    + destruct (Hal i Hlt)
        as (id & v & g & pe & pg & ? & ? & ? & ? & H1 & H2 & H3 & H4).
      exists id, v, g, pe, pg. repeat (split; [done|]). simpl.
      rewrite !lookup_app_l by lia. done.
    + assert (i = length (vec_C Mat3 acc)) as -> by lia.
      exists viewId, view, gtView, pose_eval, pose_gt.
      repeat (split; [done|]). simpl.
      split; [rewrite <- Hl1; apply list_lookup_middle; reflexivity|].
      split; [apply list_lookup_middle; reflexivity|].
      split; [rewrite <- Hl2; apply list_lookup_middle; reflexivity|].
      rewrite <- Hl3; apply list_lookup_middle; reflexivity.
Qed.

Lemma evaluationLoop_invariant (sfmData sfmData_gt : SfMData) entries acc ev :
  (∀ iter, iter ∈ entries → views sfmData !! iter.1 = Some iter.2) →
  sameLengths acc →
  (∀ i, i < length (vec_C Mat3 acc) → alignedAt sfmData sfmData_gt acc i) →
  evaluationLoop sfmData sfmData_gt entries acc = Ok ev →
  sameLengths ev
  ∧ (∀ i, i < length (vec_C Mat3 ev) → alignedAt sfmData sfmData_gt ev i)
  ∧ length (vec_C Mat3 ev)
    = length (vec_C Mat3 acc)
      + length (filter (λ iter, isEvaluated sfmData sfmData_gt iter = true) entries).
Proof.
  revert acc. induction entries as [|iter rest IH]; intros acc Hin Hlen Hal; simpl.
  - intros [= <-]. split; [done|]. split; [done | lia].
  - destruct (evaluationTurn sfmData sfmData_gt acc iter) as [acc'|e] eqn:Hturn;
      simpl; [|discriminate].
    intros Hloop.
    assert (Hrest : ∀ it, it ∈ rest → views sfmData !! it.1 = Some it.2).
    { intros it Hit. apply Hin. by right. }
    apply evaluationTurn_Ok in Hturn
      as [[Hskip ->] | (Heval & view & gtView & pe & pg & Hv & Hpe & Hgt & Hpg & ->)].
    + destruct (IH acc Hrest Hlen Hal Hloop) as (? & ? & Hcount).
      split; [done|]. split; [done|].
      rewrite filter_cons_False by (rewrite Hskip; discriminate). exact Hcount.
    + assert (Hview : views sfmData !! iter.1 = Some (Some view)).
      { rewrite <- Hv. apply Hin. left. }
      destruct (pushEvaluation_aligned sfmData sfmData_gt acc iter.1 view gtView pe pg
                  Hlen Hal Hview Hpe Hgt Hpg) as [Hlen' Hal'].
      destruct (IH _ Hrest Hlen' Hal' Hloop) as (? & ? & Hcount).
      split; [done|]. split; [done|].
      rewrite filter_cons_True by done. rewrite Hcount. simpl.
      rewrite length_app. simpl. lia.
Qed.

(** X15: when the loop of the quality evaluation returns, its four vectors
    have the same length: the number of views that have a pose in the
    evaluated scene and whose id is a view of the ground truth, at most the
    number of views of the evaluated scene. *)
Theorem fillEvaluationVectors_lengths (sfmData sfmData_gt : SfMData) ev :
  fillEvaluationVectors sfmData sfmData_gt = Ok ev →
  length (vec_camPosGT Mat3 ev) = length (vec_C Mat3 ev)
  ∧ length (vec_camRotGT Mat3 ev) = length (vec_C Mat3 ev)
  ∧ length (vec_camRot Mat3 ev) = length (vec_C Mat3 ev)
  ∧ length (vec_C Mat3 ev)
    = length (filter (λ iter, isEvaluated sfmData sfmData_gt iter = true)
                (map_to_list (views sfmData)))
  ∧ length (vec_C Mat3 ev) ≤ size (views sfmData).
Proof.
  intros Hfill.
  destruct (evaluationLoop_invariant sfmData sfmData_gt
              (map_to_list (views sfmData)) (mkEvaluationVectors Mat3 [] [] [] []) ev)
    as ((H1 & H2 & H3) & _ & Hcount); try done.
  { intros [k v] Hin. by apply elem_of_map_to_list in Hin. }
  { simpl. intros i Hi. lia. }
  simpl in Hcount. repeat (split; [done|]).
  rewrite Hcount.
  etrans; [apply length_filter|]. by rewrite length_map_to_list.
Qed.

(** X16: when the loop returns, the entries of the four vectors at one
    index come from one view of the evaluated scene: the centre and the
    rotation of its pose there, and the centre and the rotation of the pose
    of the ground truth view of the same view id. *)
Theorem fillEvaluationVectors_aligned (sfmData sfmData_gt : SfMData) ev (i : nat) :
  fillEvaluationVectors sfmData sfmData_gt = Ok ev →
  i < length (vec_C Mat3 ev) →
  alignedAt sfmData sfmData_gt ev i.
Proof.
  intros Hfill.
  destruct (evaluationLoop_invariant sfmData sfmData_gt
              (map_to_list (views sfmData)) (mkEvaluationVectors Mat3 [] [] [] []) ev)
    as (_ & Hal & _); try done.
  { intros [k v] Hin. by apply elem_of_map_to_list in Hin. }
  { simpl. intros j Hj. lia. }
  apply Hal.
Qed.

(** X17: the loop returns exactly when no view pointer of the evaluated
    scene is null and every view it does not skip has a ground truth view
    that is not null and whose pose exists in the ground truth. A posed view
    whose ground truth view has no pose is not skipped: the loop throws. *)
Theorem fillEvaluationVectors_returns_iff (sfmData sfmData_gt : SfMData) :
  ((∃ ev, fillEvaluationVectors sfmData sfmData_gt = Ok ev) ↔
   evaluable sfmData sfmData_gt) ∧
  (∀ viewId view gtView,
     views sfmData !! viewId = Some (Some view) →
     is_Some (_poses sfmData !! getPoseId view) →
     views sfmData_gt !! getViewId view = Some (Some gtView) →
     _poses sfmData_gt !! IndexT_of_int (int_of_IndexT (getPoseId gtView)) = None →
     ∃ e, fillEvaluationVectors sfmData sfmData_gt = Throw e).
Proof.
  assert (Hiff : (∃ ev, fillEvaluationVectors sfmData sfmData_gt = Ok ev) ↔
                 evaluable sfmData sfmData_gt).
  { unfold fillEvaluationVectors. rewrite evaluationLoop_runs, Forall_forall.
    unfold evaluable, turnRuns. split.
    - intros Hall viewId viewPtr Hv.
      apply (Hall (viewId, viewPtr)). by apply elem_of_map_to_list.
    - intros Hev [viewId viewPtr] Hin. apply elem_of_map_to_list in Hin.
      by apply (Hev viewId). }
  split; [exact Hiff|].
  intros viewId view gtView Hview Hpose Hgt Hnone.
  destruct (fillEvaluationVectors sfmData sfmData_gt) as [ev|e] eqn:Hfill; [|eauto].
  exfalso. assert (Hev : evaluable sfmData sfmData_gt) by (apply Hiff; eauto).
  destruct (Hev viewId (Some view) Hview) as (view' & [= <-] & Hrun).
  destruct (Hrun Hpose (Some gtView) Hgt) as (gtView' & [= <-] & [p Hp]).
  congruence.
Qed.

(** X18: keeping the pose id of the ground truth view in an [int] does not
    change the pose that is looked up. For an id of 32 bits, the value
    converted to [int] and back is the id; the [int] is negative from 2^31
    on, and the undefined id is kept as -1. *)
Theorem IndexT_int_roundtrip (i : IndexT) :
  (i < 2 ^ 32)%N →
  IndexT_of_int (int_of_IndexT i) = i
  ∧ (- 2 ^ 31 ≤ int_of_IndexT i < 2 ^ 31)%Z
  ∧ ((2 ^ 31 ≤ i)%N → (int_of_IndexT i < 0)%Z)
  ∧ int_of_IndexT UndefinedIndexT = (-1)%Z.
Proof.
  intros Hi. unfold IndexT_of_int, int_of_IndexT.
  assert (Hz : (0 ≤ Z.of_N i < 2 ^ 32)%Z) by lia.
  rewrite (Z.mod_small (Z.of_N i)) by exact Hz.
  split; [|split; [|split]].
  - destruct (Z.ltb_spec (Z.of_N i) (2 ^ 31)).
    + rewrite Z.mod_small by lia. lia.
    + replace (Z.of_N i - 2 ^ 32)%Z with (Z.of_N i + (-1) * 2 ^ 32)%Z by lia.
      rewrite Z.mod_add by lia. rewrite Z.mod_small by lia. lia.
  - destruct (Z.ltb_spec (Z.of_N i) (2 ^ 31)); lia.
  - intros Hge. destruct (Z.ltb_spec (Z.of_N i) (2 ^ 31)); lia.
  - reflexivity.
Qed.

End QualityEvaluationProperties.

(** ** The a-contrario kernel *)

Section TranslationTripletKernelProperties.
Variable Mat3 : Type.
Variable Vec : Type.
Variable Model : Type.
Variable Mat3_mul : Mat3 → Mat3 → Mat3.
Variable Mat3_inverse : Mat3 → Mat3.
Variable ApplyTransformationToPoints : list Vec → Mat3 → list Vec.
Variable ErrorArg_Error : Model → Vec → Vec → Vec → float.
Variable log10_pi : float.
Local Open Scope nat_scope.

Local Abbreviation Kernel := (TranslationTripletKernelACRansac Mat3 Vec).
Local Abbreviation kError := (Error Mat3 Vec Model ErrorArg_Error).
Local Abbreviation kErrors_loop := (Errors_loop Mat3 Vec Model ErrorArg_Error).
Local Abbreviation kErrors := (Errors Mat3 Vec Model ErrorArg_Error).
Local Abbreviation kNewKernel :=
  (newKernel Mat3 Vec Mat3_mul Mat3_inverse ApplyTransformationToPoints log10_pi).

Lemma Error_defined (k : Kernel) (sample : nat) (model : Model) :
  (∃ r, kError k sample model = Defined r) ↔
  sample < length (x1n_ Mat3 Vec k) ∧ sample < length (x2n_ Mat3 Vec k)
  ∧ sample < length (x3n_ Mat3 Vec k).
Proof.
  unfold Error, col. rewrite <- !lookup_lt_is_Some.
  destruct (x1n_ Mat3 Vec k !! sample), (x2n_ Mat3 Vec k !! sample),
    (x3n_ Mat3 Vec k !! sample); split;
    try (intros [? ?]; discriminate);
    try (intros ([? ?] & [? ?] & [? ?]); discriminate);
    eauto.
Qed.

Lemma Errors_loop_written (k : Kernel) (model : Model) (remaining : nat) :
  ∀ sample vec_errors vec_errors',
    kErrors_loop k model remaining sample vec_errors = Defined vec_errors' →
    length vec_errors' = length vec_errors
    ∧ (∀ i, sample ≤ i < sample + remaining →
         ∃ r, kError k i model = Defined r ∧ vec_errors' !! i = Some r)
    ∧ (∀ i, i < sample ∨ sample + remaining ≤ i →
         vec_errors' !! i = vec_errors !! i).
Proof.
  induction remaining as [|remaining IH]; intros sample vec vec'; simpl.
  - intros [= <-]. split; [done|]. split; [intros i ?; lia | done].
  - destruct (kError k sample model) as [err|] eqn:Herr; [|discriminate].
    destruct (vec !! sample) as [old|] eqn:Hold; [|discriminate].
    intros Hloop. apply IH in Hloop as (Hlen & Hnew & Hrest).
    rewrite length_insert in Hlen. split; [exact Hlen|].
    apply lookup_lt_Some in Hold. split.
    + intros i Hi. destruct (decide (i = sample)) as [->|Hne].
      * exists err. split; [done|].
        rewrite Hrest by lia. by apply list_lookup_insert_eq.
      * apply Hnew. lia.
    + intros i Hi. rewrite Hrest by lia.
      apply list_lookup_insert_ne. lia.
Qed.

Lemma Errors_loop_defined (k : Kernel) (model : Model) (remaining : nat) :
  ∀ sample vec_errors,
    (∀ i, sample ≤ i < sample + remaining → ∃ r, kError k i model = Defined r) →
    sample + remaining ≤ length vec_errors →
    ∃ vec_errors', kErrors_loop k model remaining sample vec_errors = Defined vec_errors'.
Proof.
  induction remaining as [|remaining IH]; intros sample vec Herr Hlen; simpl.
  - eauto.
  - destruct (Herr sample) as [r ->]; [lia|].
    destruct (lookup_lt_is_Some_2 vec sample) as [old ->]; [lia|].
    apply IH.
    + intros i Hi. apply Herr. lia.
    + rewrite length_insert. lia.
Qed.

(** X19: [Errors] and [Error] agree. When [Errors] returns, the vector has
    the length it had, its entry at every sample below [NumSamples] is the
    error [Error] gives for that sample, and the entries from [NumSamples]
    on are untouched. It returns when the three normalized matrices have
    the same number of columns and the vector has room for them; on a
    shorter vector its behaviour is undefined. *)
Theorem Errors_agrees_with_Error (k : Kernel) (model : Model) (vec_errors : list float) :
  (∀ vec_errors', kErrors k model vec_errors = Defined vec_errors' →
     length vec_errors' = length vec_errors
     ∧ (∀ sample, sample < NumSamples Mat3 Vec k →
          ∃ r, kError k sample model = Defined r ∧ vec_errors' !! sample = Some r)
     ∧ (∀ i, NumSamples Mat3 Vec k ≤ i → vec_errors' !! i = vec_errors !! i)) ∧
  (length (x2n_ Mat3 Vec k) = NumSamples Mat3 Vec k →
   length (x3n_ Mat3 Vec k) = NumSamples Mat3 Vec k →
   NumSamples Mat3 Vec k ≤ length vec_errors →
   ∃ vec_errors', kErrors k model vec_errors = Defined vec_errors') ∧
  (length vec_errors < NumSamples Mat3 Vec k →
   kErrors k model vec_errors = Undefined).
Proof.
  unfold Errors, NumSamples.
  assert (Hwritten : ∀ vec_errors',
    kErrors_loop k model (length (x1n_ Mat3 Vec k)) 0 vec_errors = Defined vec_errors' →
    length vec_errors' = length vec_errors
    ∧ (∀ sample, sample < length (x1n_ Mat3 Vec k) →
         ∃ r, kError k sample model = Defined r ∧ vec_errors' !! sample = Some r)
    ∧ (∀ i, length (x1n_ Mat3 Vec k) ≤ i → vec_errors' !! i = vec_errors !! i)).
  { intros vec' Hloop.
    apply Errors_loop_written in Hloop as (Hlen & Hnew & Hrest).
    split; [exact Hlen|]. split.
    - intros sample Hs. apply Hnew. lia.
    - intros i Hi. apply Hrest. lia. }
  split; [exact Hwritten|]. split.
  - intros H2 H3 Hlen. apply Errors_loop_defined; [|lia].
    intros i Hi. apply Error_defined. lia.
  - intros Hshort.
    destruct (kErrors_loop k model (length (x1n_ Mat3 Vec k)) 0 vec_errors)
      as [vec'|] eqn:Hloop; [|done].
    exfalso. destruct (Hwritten vec' eq_refl) as (Hlen & Hnew & _).
    destruct (Hnew (length vec_errors) Hshort) as (r & _ & Hr).
    apply lookup_lt_Some in Hr. lia.
Qed.

(** X20: the constructor of the kernel needs three matrices in [vec_KRi].
    With fewer its behaviour is undefined; with three or more, the first
    three are multiplied on the left by the inverse of [K], the others and
    the length are kept, and the kernel has as many samples as the
    normalized first matrix of points has columns. *)
Theorem newKernel_bounds (x1 x2 x3 : list Vec) (vec_KRi : list Mat3) (K : Mat3)
    (ThresholdUpperBound : float) :
  (length vec_KRi < 3 →
     kNewKernel x1 x2 x3 vec_KRi K ThresholdUpperBound = Undefined) ∧
  (3 ≤ length vec_KRi →
     ∃ k, kNewKernel x1 x2 x3 vec_KRi K ThresholdUpperBound = Defined k
       ∧ length (vec_KR_ Mat3 Vec k) = length vec_KRi
       ∧ (∀ i m, i < 3 → vec_KRi !! i = Some m →
            vec_KR_ Mat3 Vec k !! i = Some (Mat3_mul (Mat3_inverse K) m))
       ∧ (∀ i, 3 ≤ i → vec_KR_ Mat3 Vec k !! i = vec_KRi !! i)
       ∧ NumSamples Mat3 Vec k
         = length (ApplyTransformationToPoints x1 (Mat3_inverse K))
       ∧ normalizer1 Mat3 Vec k = Mat3_inverse K).
Proof.
  destruct vec_KRi as [|m0 [|m1 [|m2 rest]]]; simpl; split;
    try (intros _; reflexivity); try (intros ?; lia).
  intros _. eexists. split; [reflexivity|]. simpl.
  split; [done|]. split; [|split; [|done]].
  - intros [|[|[|i]]] m Hi; simpl; try lia; by intros [= <-].
  - intros [|[|[|i]]] Hi; simpl; try lia; done.
Qed.

End TranslationTripletKernelProperties.

(** * Sample runs

    The definitions evaluated on the sample scene, and the theorems above
    applied to it. *)

#[local] Existing Instances Sample.geometry Sample.externals Sample.estimators.

(** The scene functions run on the sample scene. *)
Example IsPoseAndIntrinsicDefined_plain_view :
  IsPoseAndIntrinsicDefined Sample.rigScene (Some (Sample.view 0 0 0)) = Ok true.
Proof. vm_compute. reflexivity. Qed.

Example IsPoseAndIntrinsicDefined_no_pose :
  IsPoseAndIntrinsicDefined Sample.rigScene (Some (Sample.view 1 0 1)) = Ok false.
Proof. vm_compute. reflexivity. Qed.

Example IsPoseAndIntrinsicDefined_rig_view :
  IsPoseAndIntrinsicDefined Sample.rigScene (Some (Sample.rigView 2 0 5 7 0)) = Ok true.
Proof. vm_compute. reflexivity. Qed.

Example IsPoseAndIntrinsicDefined_rig_uninitialized :
  IsPoseAndIntrinsicDefined Sample.rigScene (Some (Sample.rigView 2 0 5 7 1)) = Ok false.
Proof. vm_compute. reflexivity. Qed.

Example IsPoseAndIntrinsicDefined_rig_missing :
  IsPoseAndIntrinsicDefined Sample.rigScene (Some (Sample.rigView 2 0 5 8 0))
  = Throw (std_out_of_range "map::at").
Proof. vm_compute. reflexivity. Qed.

Example getPose_rig_view :
  getPose Sample.rigScene (Sample.rigView 2 0 5 7 0) = Ok (6, 10)%Z.
Proof. vm_compute. reflexivity. Qed.

Lemma IsPoseAndIntrinsicDefined_iff_witness :
  IsPoseAndIntrinsicDefined Sample.rigScene (Some (Sample.rigView 2 0 5 7 0)) = Ok true ∧
  IsPoseAndIntrinsicDefined Sample.rigScene (Some (Sample.rigView 2 0 5 7 1)) ≠ Ok true ∧
  IsPoseAndIntrinsicDefined Sample.rigScene (Some (Sample.rigView 2 0 5 8 0)) ≠ Ok true ∧
  IsPoseAndIntrinsicDefined Sample.rigScene (Some (Sample.view 1 0 1)) ≠ Ok true.
Proof.
  split; [|split; [|split]].
  - apply (proj2 (@IsPoseAndIntrinsicDefined_iff Sample.geometry Sample.rigScene
                    (Some (Sample.rigView 2 0 5 7 0)))).
    exists (Sample.rigView 2 0 5 7 0).
    split; [reflexivity|]. split; [discriminate|].
    split; [eexists; reflexivity|]. split; [discriminate|].
    split; [eexists; reflexivity|]. intros _.
    eexists _, _. split; [reflexivity|]. split; [reflexivity|]. discriminate.
  - intros Ht.
    apply (proj1 (@IsPoseAndIntrinsicDefined_iff Sample.geometry Sample.rigScene
                    (Some (Sample.rigView 2 0 5 7 1)))) in Ht
      as (v & [= <-] & _ & _ & _ & _ & Hrig).
    destruct Hrig as (rig & sp & Hr & Hs & Hne); [discriminate|].
    vm_compute in Hr. injection Hr as <-.
    vm_compute in Hs. injection Hs as <-.
    by apply Hne.
  - intros Ht.
    apply (proj1 (@IsPoseAndIntrinsicDefined_iff Sample.geometry Sample.rigScene
                    (Some (Sample.rigView 2 0 5 8 0)))) in Ht
      as (v & [= <-] & _ & _ & _ & _ & Hrig).
    destruct Hrig as (rig & sp & Hr & _); [discriminate|].
    vm_compute in Hr. discriminate.
  - intros Ht.
    apply (proj1 (@IsPoseAndIntrinsicDefined_iff Sample.geometry Sample.rigScene
                    (Some (Sample.view 1 0 1)))) in Ht
      as (v & [= <-] & _ & _ & _ & [p Hp] & _).
    vm_compute in Hp. discriminate.
Defined.

(** The pose id 5 of the view is in the poses and the view is a view of a
    rig, the rig 8, which the scene does not hold: [getPose] returns no
    pose, it throws. *)
Lemma getPose_rig_missing_throws :
  _poses Sample.rigScene !! getPoseId (Sample.rigView 2 0 5 8 0) = Some (2, 3)%Z ∧
  isPartOfRig (Sample.rigView 2 0 5 8 0) = true ∧
  getPose Sample.rigScene (Sample.rigView 2 0 5 8 0)
    = Throw (std_out_of_range "map::at") ∧
  ¬ ∃ q, getPose Sample.rigScene (Sample.rigView 2 0 5 8 0) = Ok q.
Proof.
  split; [reflexivity|]. split; [reflexivity|]. split; [reflexivity|].
  intros [q Hq]. vm_compute in Hq. discriminate.
Qed.

Lemma getPose_spec_witness :
  getPose Sample.rigScene (Sample.view 0 0 0) = Ok (1, 0)%Z ∧
  getPose Sample.rigScene (Sample.rigView 2 0 5 7 0)
    = Ok (@Pose3_mul Sample.geometry (3, 1)%Z (2, 3)%Z) ∧
  getPose Sample.rigScene (Sample.rigView 2 0 5 8 0)
    = Throw (std_out_of_range "map::at") ∧
  getPose Sample.rigScene (Sample.rigView 2 0 5 7 2)
    = Throw (std_out_of_range "vector::at").
Proof.
  split; [|split; [|split]].
  - apply (@getPose_spec Sample.geometry Sample.rigScene (Sample.view 0 0 0) (1, 0)%Z);
      reflexivity.
  - refine (proj1 (proj2 (@getPose_spec Sample.geometry Sample.rigScene
              (Sample.rigView 2 0 5 7 0) (2, 3)%Z _) _)
              _ (@mkRigSubPose Sample.geometry ESTIMATED (3, 1)%Z) _ _);
      first [reflexivity | discriminate].
  - refine (proj1 (proj2 (proj2 (@getPose_spec Sample.geometry Sample.rigScene
              (Sample.rigView 2 0 5 8 0) (2, 3)%Z _) _)) _);
      first [reflexivity | discriminate].
  - refine (proj2 (proj2 (proj2 (@getPose_spec Sample.geometry Sample.rigScene
              (Sample.rigView 2 0 5 7 2) (2, 3)%Z _) _)) _ _ _);
      first [reflexivity | discriminate].
Defined.

Lemma erasePose_spec_witness :
  (∃ s', erasePose 5 Sample.rigScene = (s', Ok tt)
     ∧ _poses s' !! 5 = None ∧ _poses s' !! 0 = Some (1, 0)%Z) ∧
  erasePose 4 Sample.rigScene =
    (Sample.rigScene, Throw (std_out_of_range "Can't erase unfind pose 4")).
Proof.
  split.
  - destruct (proj1 (@erasePose_spec Sample.geometry Sample.rigScene 5))
      as (s' & He & _ & Hn & Ho & _).
    + eexists. reflexivity.
    + exists s'. split; [exact He|]. split; [exact Hn|].
      rewrite Ho; [reflexivity | discriminate].
  - apply (proj2 (@erasePose_spec Sample.geometry Sample.rigScene 4)).
    reflexivity.
Defined.


Lemma setLocalBundleAdjustmentGraphDistance_order_witness :
  @setLocalBundleAdjustmentGraphDistance Sample.geometry Sample.externals 4
    (@newEngine Sample.geometry Sample.externals Sample.emptyScene "out")
  = Ok (@newEngine Sample.geometry Sample.externals Sample.emptyScene "out").
Proof.
  apply (proj1 (@setLocalBundleAdjustmentGraphDistance_order
                  Sample.geometry Sample.externals
                  (@newEngine Sample.geometry Sample.externals Sample.emptyScene "out") 4)).
  reflexivity.
Defined.

Example graph_distance_after_enabling :
  match @runCalls Sample.geometry Sample.externals
          [CallSetLocalBundleAdjustmentGraphDistance 4;
           CallSetUseLocalBundleAdjustmentStrategy true;
           CallSetLocalBundleAdjustmentGraphDistance 9]
          ([], @newEngine Sample.geometry Sample.externals Sample.emptyScene "out")
  with
  | Ok (fs, e) => Some (fs, _localBA_data e)
  | Throw _ => None
  end = Some (["out/localBA/"], Some (mkLocalBundleAdjustmentData 9 "out/localBA/")).
Proof. vm_compute. reflexivity. Qed.


Example getBestInitialImagePairs_sample :
  getBestInitialImagePairs Sample.engine0 = [(3, 4); (0, 2); (0, 1)].
Proof. vm_compute. reflexivity. Qed.

Example seed_poses_sample :
  map_to_list (_poses (_sfm_data Sample.seeded)) = [(2, (1, 10)%Z); (0, (1, 0)%Z)]
  ∧ size (structure (_sfm_data Sample.seeded)) = 30%nat.
Proof. vm_compute. done. Qed.

Example triangulate_sample :
  dom (structure (triangulate Sample.engineFar Sample.posedFar {[0]} {[1]}))
    = {[0]} ∪ list_to_set (map (λ i : nat, N.of_nat (100 + i)) (seq 0 30))
  ∧ structure (triangulate Sample.engineNear Sample.posedNear {[0]} {[1]}) = ∅.
Proof. vm_compute. done. Qed.

Example incrementalReconstruction_sample :
  match incrementalReconstructionLoop 2 4%float Sample.afterSeed with
  | Some (st, n) =>
      Some (n, elements (remainingViewIds st),
            elements (reconstructedViews (_sfm_data (loop_engine st))),
            size (structure (_sfm_data (loop_engine st))))
  | None => None
  end = Some (1%nat, [], [2; 1; 0], 30%nat).
Proof. vm_compute. reflexivity. Qed.

(** The same loop with a solver that converges and moves the poses. *)
Example incrementalReconstruction_refined_sample :
  match @incrementalReconstruction Sample.geometry Sample.externals Sample.permissive
          4%float Sample.seeded with
  | Some (st, n) =>
      Some (n, elements (remainingViewIds st),
            elements (reconstructedViews (_sfm_data (loop_engine st))),
            map_to_list (_poses (_sfm_data (loop_engine st))))
  | None => None
  end = Some (1%nat, [], [2; 1; 0],
              [(2, (1, 11)%Z); (1, (1, 2)%Z); (0, (1, 1)%Z)]).
Proof. vm_compute. reflexivity. Qed.

(** The resection of the view 1 succeeds, but the scene holds a null pointer
    for it and gets no pose: the pass adds no pose and ends the loop. *)
Example iteration_null_view :
  match iteration 4%float Sample.nullView with
  | Stalled st =>
      Some (elements (reconstructedViews (_sfm_data (loop_engine st))),
            map_to_list (_poses (_sfm_data (loop_engine st))))
  | _ => None
  end = Some ([2; 0], [(2, (1, 10)%Z); (0, (1, 0)%Z)]).
Proof. vm_compute. reflexivity. Qed.

Example removeOutliers_sample :
  (removeOutliers 4%float
     (set_sfm_data (λ s, triangulate Sample.engineFar s {[0]} {[1]}) Sample.engineFar)).2
  = 63.
Proof. vm_compute. reflexivity. Qed.

Lemma triangulate_gates_witness :
  passesGates Sample.posedFar (_minAngleForTriangulation Sample.engineFar)
    (X (trackLandmark Sample.engineFar 100 5%Z {[0; 1]}))
    (dom (observations (trackLandmark Sample.engineFar 100 5%Z {[0; 1]})))
  ∧ triangulateTrack Sample.engineNear 100 {[0; 1]} Sample.posedNear = Sample.posedNear.
Proof.
  split.
  - destruct (proj1 (triangulate_gates Sample.engineFar Sample.posedFar
                       Sample.threeViews "out" {[0]} {[1]})
                100 (trackLandmark Sample.engineFar 100 5%Z {[0; 1]}))
      as [Hold|Hgates].
    + vm_compute. reflexivity.
    + vm_compute in Hold. discriminate.
    + exact Hgates.
  - apply (proj1 (proj2 (triangulate_gates Sample.engineNear Sample.posedNear
                           Sample.threeViews "out" {[0]} {[1]}))
             100 {[0; 1]} Sample.posedNear 5%Z {[0; 1]}).
    + vm_compute. reflexivity.
    + rewrite <- gates_passesGates. vm_compute. discriminate.
Defined.

Lemma computeResection_deferred_witness :
  (_minPointsPerPose Sample.seeded ≤ Z.of_nat (size (resectionTracks Sample.seeded 1)))%Z
  ∧ 2 ∈ (updateReconstruction 4%float Sample.engine0 [1; 2] {[1; 2]} {[0]}).1.2.
Proof.
  split.
  - apply (proj1 (proj2 (computeResection_deferred Sample.seeded Sample.threeViews
                           "out" 4%float [] ∅ ∅)) 1).
    vm_compute. discriminate.
  - apply (proj2 (proj2 (proj2 (computeResection_deferred Sample.engine0
                                  Sample.threeViews "out" 4%float [1; 2] {[1; 2]} {[0]})))
             2 InsufficientCorrespondences).
    + apply elem_of_union. right. by apply elem_of_singleton.
    + vm_compute. reflexivity.
Defined.

Lemma incrementalReconstruction_progress_witness :
  ∃ st' n,
    @incrementalReconstructionLoop Sample.geometry Sample.externals Sample.permissive
      2 4%float Sample.afterSeed = Some (st', n)
    ∧ reconstructedViews (_sfm_data (loop_engine Sample.afterSeed))
        ⊆ reconstructedViews (_sfm_data (loop_engine st'))
    ∧ (n ≤ size (views (_sfm_data (loop_engine Sample.afterSeed))))%nat.
Proof.
  assert (HC : @CollaboratorContracts Sample.geometry Sample.externals
                 Sample.permissive).
  { split.
    - intros scene selection fixedIntrinsics refined [= <-].
      split; [reflexivity|]. simpl. apply dom_fmap_L.
    - intros view p scene. split; reflexivity. }
  destruct (proj1 (proj2 (proj2 (proj2
              (@incrementalReconstruction_progress Sample.geometry Sample.externals
                 Sample.permissive 4%float Sample.afterSeed HC)))))
    as (st' & n & Hloop & Hinc & _ & _ & Hviews).
  exists st', n. split; [|split].
  - apply Hloop. vm_compute. lia.
  - exact Hinc.
  - apply Hviews. intros viewId Hin. simpl in Hin.
    apply elem_of_singleton in Hin as ->.
    apply elem_of_dom. eexists. vm_compute. reflexivity.
Defined.



(** ** Sample runs of the rest of the code *)

Example fillEvaluationVectors_sample :
  fillEvaluationVectors Z Sample.center Sample.rotation Sample.rigScene Sample.gtScene
  = Ok (mkEvaluationVectors Z [4; 1]%Z [3; 0]%Z [2; 1]%Z [2; 1]%Z).
Proof. vm_compute. reflexivity. Qed.

Example Errors_sample :
  match Sample.kernel with
  | Defined k =>
      (vec_KR_ Z Z k, x1n_ Z Z k,
       Errors Z Z Z Sample.kernelError k 100%Z [0; 0; 7]%float)
  | Undefined => ([], [], Undefined)
  end
  = ([-20; -40; -60; 40]%Z, [-2; -4]%Z, Defined [82; 76; 7]%float).
Proof. vm_compute. reflexivity. Qed.

Lemma getPose_of_defined_view_witness :
  existsPose Sample.rigScene (Sample.rigView 2 0 5 7 0) = true
  ∧ ∃ p, getPose Sample.rigScene (Sample.rigView 2 0 5 7 0) = Ok p.
Proof.
  apply (getPose_of_defined_view Sample.rigScene (Sample.rigView 2 0 5 7 0)).
  vm_compute. reflexivity.
Defined.

Lemma getPose_returns_iff_witness :
  ∃ what, std_out_of_range "map::at" = std_out_of_range what.
Proof.
  apply (proj2 (getPose_returns_iff Sample.rigScene (Sample.rigView 2 0 5 8 0))).
  vm_compute. reflexivity.
Defined.

Lemma setAbsolutePose_getPose_witness :
  getPose (setAbsolutePose 1 (4, 2)%Z Sample.rigScene) (Sample.view 1 0 1) = Ok (4, 2)%Z
  ∧ getPose (setAbsolutePose 5 (4, 2)%Z Sample.rigScene) (Sample.rigView 2 0 5 7 0)
    = Ok (@Pose3_mul Sample.geometry (3, 1)%Z (4, 2)%Z)
  ∧ IsPoseAndIntrinsicDefined (setAbsolutePose 1 (4, 2)%Z Sample.rigScene)
      (Some (Sample.view 0 0 0)) = Ok true.
Proof.
  split; [|split].
  - apply (proj1 (proj2 (proj1 (setAbsolutePose_getPose Sample.rigScene 1 (4, 2)%Z)
                           (Sample.view 1 0 1) eq_refl))); reflexivity.
  - apply (proj2 (proj2 (proj1 (setAbsolutePose_getPose Sample.rigScene 5 (4, 2)%Z)
                           (Sample.rigView 2 0 5 7 0) eq_refl))
             (@mkRigSubPose Sample.geometry ESTIMATED (3, 1)%Z)); reflexivity.
  - apply (proj2 (proj2 (setAbsolutePose_getPose Sample.rigScene 1 (4, 2)%Z))
             (Sample.view 0 0 0)).
    vm_compute. reflexivity.
Defined.

Lemma erasePose_setAbsolutePose_witness :
  erasePose 1 (setAbsolutePose 1 (4, 2)%Z Sample.rigScene) = (Sample.rigScene, Ok tt).
Proof.
  apply (proj2 (erasePose_setAbsolutePose Sample.rigScene 1 (4, 2)%Z (4, 2)%Z)).
  reflexivity.
Defined.

Lemma erasePose_undefines_witness :
  IsPoseAndIntrinsicDefined (erasePose 0 Sample.rigScene).1 (Some (Sample.view 0 0 0))
    ≠ Ok true
  ∧ getPose (erasePose 0 Sample.rigScene).1 (Sample.rigView 2 0 5 7 0)
    = getPose Sample.rigScene (Sample.rigView 2 0 5 7 0).
Proof.
  split.
  - apply (proj1 (erasePose_undefines Sample.rigScene 0 (Sample.view 0 0 0))).
    reflexivity.
  - apply (proj2 (erasePose_undefines Sample.rigScene 0 (Sample.rigView 2 0 5 7 0))).
    vm_compute. discriminate.
Defined.

Lemma IsPoseAndIntrinsicDefined_id_cases_witness :
  IsPoseAndIntrinsicDefined_id Sample.rigScene 9 = Throw (std_out_of_range "map::at")
  ∧ ∃ view, views Sample.rigScene !! 0 = Some view
      ∧ IsPoseAndIntrinsicDefined_id Sample.rigScene 0
        = IsPoseAndIntrinsicDefined Sample.rigScene view.
Proof.
  split.
  - apply (proj1 (IsPoseAndIntrinsicDefined_id_cases Sample.rigScene 9)).
    unfold GetViewsKeys. rewrite elem_of_dom. intros [view Hview].
    vm_compute in Hview. discriminate.
  - destruct (proj2 (IsPoseAndIntrinsicDefined_id_cases Sample.rigScene 0))
      as (view & Hview & Hcall & _).
    + unfold GetViewsKeys. apply elem_of_dom. eexists. vm_compute. reflexivity.
    + exists view. split; [exact Hview | exact Hcall].
Defined.

Lemma IsPoseAndIntrinsicDefined_any_intrinsic_pointer_witness :
  IsPoseAndIntrinsicDefined
    (set_intrinsics (<[0 := None]>) Sample.rigScene) (Some (Sample.view 0 0 0)) = Ok true
  ∧ GetIntrinsicPtr (set_intrinsics (<[0 := None]>) Sample.rigScene) 0 = None.
Proof.
  destruct (IsPoseAndIntrinsicDefined_any_intrinsic_pointer
              Sample.rigScene (Sample.view 0 0 0) None) as (Hdef & Hptr & _).
  - vm_compute. reflexivity.
  - split; [exact Hdef | exact Hptr].
Defined.

Lemma configuration_frame_witness :
  ∃ fs' e',
    runCalls [CallSetUseLocalBundleAdjustmentStrategy true;
              CallSetLocalBundleAdjustmentGraphDistance 4;
              CallSetMinTrackLength 3]
      (Sample.noFolders, newEngine Sample.threeViews "out") = Ok (fs', e')
    ∧ _sfm_data e' = Sample.threeViews
    ∧ _minPointsPerPose e' = 30%Z.
Proof.
  destruct (runCalls [CallSetUseLocalBundleAdjustmentStrategy true;
                      CallSetLocalBundleAdjustmentGraphDistance 4;
                      CallSetMinTrackLength 3]
              (Sample.noFolders, newEngine Sample.threeViews "out")) as [[fs' e']|] eqn:Hrun.
  - exists fs', e'. split; [reflexivity|].
    destruct (configuration_frame _ _ _ _ _ Hrun) as ((Hs & _) & Hfresh).
    split; [exact Hs|]. exact (proj1 (Hfresh Sample.threeViews "out" eq_refl)).
  - vm_compute in Hrun. discriminate.
Defined.

Lemma setUseLocalBundleAdjustmentStrategy_restarts_witness :
  getGraphDistanceLimit <$>
    _localBA_data
      (setUseLocalBundleAdjustmentStrategy true
         (Sample.noFolders,
          set_localBA true (Some (mkLocalBundleAdjustmentData 9 "out/localBA/"))
            (newEngine Sample.threeViews "out"))).2
  = Some 1.
Proof.
  apply (proj1 (proj2 (setUseLocalBundleAdjustmentStrategy_restarts
                         Sample.noFolders (newEngine Sample.threeViews "out") 9 0))).
  reflexivity.
Defined.

Lemma configuration_calls_commute_witness :
  runCalls [CallSetLocalBundleAdjustmentGraphDistance 4; CallSetMinTrackLength 3]
    (Sample.noFolders, newEngine Sample.threeViews "out")
  = runCalls [CallSetMinTrackLength 3; CallSetLocalBundleAdjustmentGraphDistance 4]
      (Sample.noFolders, newEngine Sample.threeViews "out").
Proof.
  apply (configuration_calls_commute
           (CallSetLocalBundleAdjustmentGraphDistance 4) (CallSetMinTrackLength 3)).
  simpl. lia.
Defined.

Lemma fillEvaluationVectors_lengths_witness :
  length (vec_camPosGT Z (mkEvaluationVectors Z [4; 1]%Z [3; 0]%Z [2; 1]%Z [2; 1]%Z))
  = length (vec_C Z (mkEvaluationVectors Z [4; 1]%Z [3; 0]%Z [2; 1]%Z [2; 1]%Z)).
Proof.
  apply (fillEvaluationVectors_lengths Z Sample.center Sample.rotation
           Sample.rigScene Sample.gtScene).
  vm_compute. reflexivity.
Defined.

Lemma fillEvaluationVectors_aligned_witness :
  alignedAt Z Sample.center Sample.rotation Sample.rigScene Sample.gtScene
    (mkEvaluationVectors Z [4; 1]%Z [3; 0]%Z [2; 1]%Z [2; 1]%Z) 0.
Proof.
  apply (fillEvaluationVectors_aligned Z Sample.center Sample.rotation
           Sample.rigScene Sample.gtScene).
  - vm_compute. reflexivity.
  - simpl. lia.
Defined.

Lemma fillEvaluationVectors_returns_iff_witness :
  ∃ e, fillEvaluationVectors Z Sample.center Sample.rotation
         Sample.rigScene Sample.gtSceneNoPose = Throw e.
Proof.
  apply (proj2 (fillEvaluationVectors_returns_iff Z Sample.center Sample.rotation
                  Sample.rigScene Sample.gtSceneNoPose)
           2 (Sample.rigView 2 0 5 7 0) (Sample.view 2 0 5)).
  - reflexivity.
  - eexists. vm_compute. reflexivity.
  - reflexivity.
  - reflexivity.
Defined.

Lemma IndexT_int_roundtrip_witness :
  IndexT_of_int (int_of_IndexT 3000000000) = 3000000000.
Proof.
  apply (IndexT_int_roundtrip 3000000000). lia.
Defined.

Lemma Errors_agrees_with_Error_witness :
  ∃ vec_errors',
    Errors Z Z Z Sample.kernelError
      (mkKernel Z Z [1; 2]%Z [3; 4]%Z [5; 6]%Z [-2; -4]%Z [-6; -8]%Z [-10; -12]%Z
         (-2)%Z 2%Z 0%float 1%float [-20; -40; -60; 40]%Z)
      100%Z [0; 0; 7]%float
    = Defined vec_errors'.
Proof.
  apply (proj1 (proj2 (Errors_agrees_with_Error Z Z Z Sample.kernelError
                         (mkKernel Z Z [1; 2]%Z [3; 4]%Z [5; 6]%Z
                            [-2; -4]%Z [-6; -8]%Z [-10; -12]%Z
                            (-2)%Z 2%Z 0%float 1%float [-20; -40; -60; 40]%Z)
                         100%Z [0; 0; 7]%float)));
    unfold NumSamples; simpl; lia.
Defined.

Lemma newKernel_bounds_witness :
  newKernel Z Z Z.mul Z.opp (λ pts h, map (Z.mul h) pts) 0%float
    [1; 2]%Z [3; 4]%Z [5; 6]%Z [10; 20]%Z 2%Z 1%float
  = Undefined.
Proof.
  apply (proj1 (newKernel_bounds Z Z Z.mul Z.opp (λ pts h, map (Z.mul h) pts) 0%float
                  [1; 2]%Z [3; 4]%Z [5; 6]%Z [10; 20]%Z 2%Z 1%float)).
  simpl. lia.
Defined.

Lemma getRig_getRigSubPose_witness :
  getRig Sample.rigScene (Sample.rigView 2 0 5 8 0) = Throw (std_out_of_range "map::at")
  ∧ ∃ rig, getRig Sample.rigScene (Sample.rigView 2 0 5 7 0) = Ok rig
      ∧ _subPoses rig !! 0%nat = Some (@mkRigSubPose Sample.geometry ESTIMATED (3, 1)%Z).
Proof.
  split.
  - apply (proj1 (proj2 (getRig_getRigSubPose Sample.rigScene
                           (Sample.rigView 2 0 5 8 0) eq_refl))).
    reflexivity.
  - destruct (proj1 (proj2 (proj2 (getRig_getRigSubPose Sample.rigScene
                                     (Sample.rigView 2 0 5 7 0) eq_refl))
                       (@mkRigSubPose Sample.geometry ESTIMATED (3, 1)%Z)))
      as (rig & Hrig & Hsp).
    + vm_compute. reflexivity.
    + exists rig. split; [exact Hrig | exact Hsp].
Defined.

Lemma IsPoseAndIntrinsicDefined_throws_iff_witness :
  IsPoseAndIntrinsicDefined Sample.rigScene (Some (Sample.rigView 2 9 9 8 0))
  = Throw (std_out_of_range "map::at").
Proof.
  apply (proj2 (IsPoseAndIntrinsicDefined_throws_iff Sample.rigScene
                  (Some (Sample.rigView 2 9 9 8 0)) (std_out_of_range "map::at"))).
  exists (Sample.rigView 2 9 9 8 0).
  split; [reflexivity|]. split; [discriminate|]. split; [discriminate|].
  split; [reflexivity|]. split; [reflexivity|]. eexists. reflexivity.
Defined.

Lemma setAbsolutePose_defines_witness :
  IsPoseAndIntrinsicDefined (setAbsolutePose 1 (4, 2)%Z Sample.rigScene)
    (Some (Sample.view 1 0 1)) = Ok true.
Proof.
  apply (setAbsolutePose_defines Sample.rigScene (Sample.view 1 0 1) (4, 2)%Z).
  - discriminate.
  - discriminate.
  - eexists. vm_compute. reflexivity.
  - discriminate.
Defined.
